(** * p5.js: lights and image display

    A shallow embedding of two source files of the library:

    - the lighting functions [ambientLight], [directionalLight] and
      [pointLight], which write into the uniforms of the lighting shader
      and keep one counter per light type on the renderer;
    - [src/image/loading_displaying.js]: [image], [tint], [noTint],
      [_getTintedImageCanvas] and [imageMode].

    JavaScript values are an inductive type, the mutable objects reached
    through [this] are fields of an explicit state record, and a function
    body is a computation in a state-and-exception monad, so that the
    state left behind by a call that throws can be inspected. *)

From Stdlib Require Import ZArith QArith Qround String List Lia.
From stdpp Require Import base option list gmap strings pretty.

Close Scope Q_scope.
Open Scope string_scope.
Open Scope list_scope.
Open Scope nat_scope.

(** ** JavaScript values *)

Module JS.

(** Numbers are rationals: the functions below move numbers around and,
    for tinting, multiply and divide them; rounding of doubles is outside
    the model. *)
#[warnings="-register-all"]
Inductive value : Type :=
| VUndefined
| VNull
| VBool (b : bool)
| VNum (q : Q)
| VStr (s : string)
| VObj (fields : list (string * value)).

(** What a [throw] carries. *)
Inductive exn : Type :=
| TypeError (msg : string)
| Error (msg : string).

(** The result of evaluating an expression that may throw. *)
Inductive completion (A : Type) : Type :=
| Normal (a : A)
| Throw (e : exn).
Arguments Normal {A} a.
Arguments Throw {A} e.

(** [typeof v] *)
Definition typeof (v : value) : string :=
  match v with
  | VUndefined => "undefined"
  | VNull => "object"
  | VBool _ => "boolean"
  | VNum _ => "number"
  | VStr _ => "string"
  | VObj _ => "object"
  end.

(** Own field of an object literal; a missing field reads [undefined]. *)
Fixpoint field (fs : list (string * value)) (name : string) : value :=
  match fs with
  | [] => VUndefined
  | (k, v) :: fs' => if String.eqb k name then v else field fs' name
  end.

(** [v.name], for a name that no built-in prototype defines (such as
    [x], [y], [z]): reading it from [undefined] or [null] throws a
    TypeError, a primitive is boxed and has no such property, an object
    gives its field. *)
Definition getMember (v : value) (name : string) : completion value :=
  match v with
  | VUndefined =>
      Throw (TypeError ("Cannot read property '" +:+ name +:+ "' of undefined"))
  | VNull =>
      Throw (TypeError ("Cannot read property '" +:+ name +:+ "' of null"))
  | VObj fs => Normal (field fs name)
  | VBool _ | VNum _ | VStr _ => Normal VUndefined
  end.

(** [a[i]] on an array held as a list: any index outside the array,
    negative ones included, reads [undefined]. *)
Definition index (a : list value) (i : Z) : value :=
  if (i <? 0)%Z then VUndefined else nth (Z.to_nat i) a VUndefined.

(** [m === s] for a string [s]: only a string with the same characters
    is strictly equal to it. *)
Definition strictEqString (m : value) (s : string) : bool :=
  match m with
  | VStr t => String.eqb t s
  | _ => false
  end.

(** State and exception monad over a state [S]: a throw keeps the state
    reached so far. *)
Definition M (S A : Type) : Type := S → completion A * S.

Definition ret {S A} (a : A) : M S A := λ s, (Normal a, s).

Definition bind {S A B} (m : M S A) (k : A → M S B) : M S B :=
  λ s, match m s with
       | (Normal a, s') => k a s'
       | (Throw e, s') => (Throw e, s')
       end.

Definition gets {S A} (f : S → A) : M S A := λ s, (Normal (f s), s).
Definition modify {S} (f : S → S) : M S unit := λ s, (Normal tt, f s).
Definition lift {S A} (c : completion A) : M S A := λ s, (c, s).

End JS.

Import JS.

Notation "'let*' x ':=' m 'in' k" := (bind m (λ x, k))
  (at level 10, x name, m at level 100, k at level 200).
Notation "m ';;' k" := (bind m (λ _, k))
  (at level 100, k at level 200, right associativity).

(** ** The lighting functions *)

Module Lights.

(** A shader program handle. The renderer keeps one compiled program per
    pair of stage names, so the pair identifies the handle. *)
Definition program : Type := string * string.

(** A uniform location of a program, as [gl.getUniformLocation] returns
    it. *)
Record location : Type := Location { loc_program : program; loc_name : string }.

(** The value a uniform holds, by the call that wrote it. *)
Inductive uniformValue : Type :=
| Uniform1i (n : N)
| Uniform3f (x y z : value)
| Uniform4f (x y z w : value).

(** The calls made on the renderer's shader cache and on the GL context,
    in the order they happen. *)
Inductive glcall : Type :=
| GetShader (vert frag : string)
| UseProgram (p : program)
| GetUniformLocation (p : program) (name : string)
| SetUniform (l : option location) (u : uniformValue).

(** The renderer as the lighting functions see it: the three counters
    of [this._renderer], its GL context (the program in use, the uniform
    values of every program, the calls received) and the properties the
    functions store on the shader program object. The counters hold
    non-negative integers, far below the range where doubles stop being
    exact, hence [N]. *)
Record Renderer : Type := mkRenderer {
  ambientLightCount : N;
  directionalLightCount : N;
  pointLightCount : N;
  currentProgram : option program;
  uniforms : gmap (program * string) uniformValue;
  properties : gmap (program * string) location;
  calls : list glcall
}.

Definition logCall (c : glcall) (r : Renderer) : Renderer :=
  mkRenderer (ambientLightCount r) (directionalLightCount r) (pointLightCount r)
    (currentProgram r) (uniforms r) (properties r) (calls r ++ [c]).

Definition setCurrentProgram (p : program) (r : Renderer) : Renderer :=
  mkRenderer (ambientLightCount r) (directionalLightCount r) (pointLightCount r)
    (Some p) (uniforms r) (properties r) (calls r).

Definition setUniforms (u : gmap (program * string) uniformValue) (r : Renderer)
  : Renderer :=
  mkRenderer (ambientLightCount r) (directionalLightCount r) (pointLightCount r)
    (currentProgram r) u (properties r) (calls r).

Definition setProperties (ps : gmap (program * string) location) (r : Renderer)
  : Renderer :=
  mkRenderer (ambientLightCount r) (directionalLightCount r) (pointLightCount r)
    (currentProgram r) (uniforms r) ps (calls r).

Definition setAmbientLightCount (n : N) (r : Renderer) : Renderer :=
  mkRenderer n (directionalLightCount r) (pointLightCount r)
    (currentProgram r) (uniforms r) (properties r) (calls r).

Definition setDirectionalLightCount (n : N) (r : Renderer) : Renderer :=
  mkRenderer (ambientLightCount r) n (pointLightCount r)
    (currentProgram r) (uniforms r) (properties r) (calls r).

Definition setPointLightCount (n : N) (r : Renderer) : Renderer :=
  mkRenderer (ambientLightCount r) (directionalLightCount r) n
    (currentProgram r) (uniforms r) (properties r) (calls r).

(** Modelled from the spec: [_getShader] of the renderer is not among
    the sources. The spec has it return, for a pair of stage names, the
    cached compiled program handle of that pair; the handle is the pair,
    and the request is recorded. *)
Definition _getShader (vert frag : string) : M Renderer program :=
  modify (logCall (GetShader vert frag));;
  ret (vert, frag).

(** [gl.useProgram(p)] *)
Definition useProgram (p : program) : M Renderer unit :=
  modify (logCall (UseProgram p));;
  modify (setCurrentProgram p).

(** [gl.getUniformLocation(p, name)]. Which names the shader source
    declares, and so the bound of its light arrays, is not modelled:
    every name has a location. *)
Definition getUniformLocation (p : program) (name : string)
  : M Renderer location :=
  modify (logCall (GetUniformLocation p name));;
  ret (Location p name).

(** A [gl.uniform*] call: the value goes to the uniform of the program
    in use; a missing location, or one of another program, writes
    nothing. *)
Definition writeUniform (l : option location) (u : uniformValue) (r : Renderer)
  : Renderer :=
  match l, currentProgram r with
  | Some (Location p name), Some q =>
      if decide (p = q) then setUniforms (<[(p, name) := u]> (uniforms r)) r
      else r
  | _, _ => r
  end.

Definition glUniform (l : option location) (u : uniformValue)
  : M Renderer unit :=
  modify (logCall (SetUniform l u));;
  modify (writeUniform l u).

Definition uniform1i (l : option location) (n : N) : M Renderer unit :=
  glUniform l (Uniform1i n).
Definition uniform3f (l : option location) (x y z : value) : M Renderer unit :=
  glUniform l (Uniform3f x y z).
Definition uniform4f (l : option location) (x y z w : value) : M Renderer unit :=
  glUniform l (Uniform4f x y z w).

(** [shaderProgram.name = l] and [shaderProgram.name] *)
Definition setProperty (p : program) (name : string) (l : location)
  : M Renderer unit :=
  modify (λ r, setProperties (<[(p, name) := l]> (properties r)) r).

Definition getProperty (p : program) (name : string)
  : M Renderer (option location) :=
  gets (λ r, properties r !! (p, name)).

Definition one : value := VNum 1%Q.

(** The lines of [directionalLight] and of [pointLight] from
    [var _x, _y, _z;] to the end of the [if], the same text in both; they
    touch no state. [args] is a copy of [arguments]; the [catch] throws
    again what it caught. *)
Definition trailingVector (arguments : list value)
  : completion (value * value * value) :=
  let args := arguments in
  let length := Z.of_nat (List.length args) in
  if String.eqb (typeof (index args (length - 1))) "number" then
    Normal (index args (length - 3), index args (length - 2),
            index args (length - 1))
  else
    match getMember (index args (length - 1)) "x" with
    | Throw error => Throw error
    | Normal _x =>
        match getMember (index args (length - 1)) "y" with
        | Throw error => Throw error
        | Normal _y =>
            match getMember (index args (length - 1)) "z" with
            | Throw error => Throw error
            | Normal _z => Normal (_x, _y, _z)
            end
        end
    end.

Section WithColor.

(** [this._renderer._pInst.color.apply(_, args)._array]: the color
    resolver is not among the sources. It is a parameter: from the
    argument list it gives the array of channels, or throws. *)
Variable color : list value → completion (list value).

Definition ambientLight (arguments : list value) : M Renderer unit :=
  let* shaderProgram := _getShader "lightVert" "lightTextureFrag" in
  useProgram shaderProgram;;
  let* count := gets ambientLightCount in
  let* l := getUniformLocation shaderProgram
              ("uAmbientColor[" +:+ pretty count +:+ "]") in
  setProperty shaderProgram "uAmbientColor" l;;
  let* colors := lift (color arguments) in
  let* uAmbientColor := getProperty shaderProgram "uAmbientColor" in
  uniform3f uAmbientColor (index colors 0) (index colors 1) (index colors 2);;
  let* l := getUniformLocation shaderProgram "uMaterialColor" in
  setProperty shaderProgram "uMaterialColor" l;;
  let* uMaterialColor := getProperty shaderProgram "uMaterialColor" in
  uniform4f uMaterialColor one one one one;;
  modify (λ r, setAmbientLightCount (ambientLightCount r + 1) r);;
  let* l := getUniformLocation shaderProgram "uAmbientLightCount" in
  setProperty shaderProgram "uAmbientLightCount" l;;
  let* uAmbientLightCount := getProperty shaderProgram "uAmbientLightCount" in
  let* count := gets ambientLightCount in
  uniform1i uAmbientLightCount count;;
  ret tt.

Definition directionalLight (arguments : list value) : M Renderer unit :=
  let v1 := index arguments 0 in
  let v2 := index arguments 1 in
  let v3 := index arguments 2 in
  let* shaderProgram := _getShader "lightVert" "lightTextureFrag" in
  useProgram shaderProgram;;
  let* count := gets directionalLightCount in
  let* l := getUniformLocation shaderProgram
              ("uDirectionalColor[" +:+ pretty count +:+ "]") in
  setProperty shaderProgram "uDirectionalColor" l;;
  let* colors := lift (color [v1; v2; v3]) in
  let* uDirectionalColor := getProperty shaderProgram "uDirectionalColor" in
  uniform3f uDirectionalColor
    (index colors 0) (index colors 1) (index colors 2);;
  let* xyz := lift (trailingVector arguments) in
  let '(_x, _y, _z) := xyz in
  let* count := gets directionalLightCount in
  let* l := getUniformLocation shaderProgram
              ("uLightingDirection[" +:+ pretty count +:+ "]") in
  setProperty shaderProgram "uLightingDirection" l;;
  let* uLightingDirection := getProperty shaderProgram "uLightingDirection" in
  uniform3f uLightingDirection _x _y _z;;
  let* l := getUniformLocation shaderProgram "uMaterialColor" in
  setProperty shaderProgram "uMaterialColor" l;;
  let* uMaterialColor := getProperty shaderProgram "uMaterialColor" in
  uniform4f uMaterialColor one one one one;;
  modify (λ r, setDirectionalLightCount (directionalLightCount r + 1) r);;
  let* l := getUniformLocation shaderProgram "uDirectionalLightCount" in
  setProperty shaderProgram "uDirectionalLightCount" l;;
  let* uDirectionalLightCount :=
    getProperty shaderProgram "uDirectionalLightCount" in
  let* count := gets directionalLightCount in
  uniform1i uDirectionalLightCount count;;
  ret tt.

Definition pointLight (arguments : list value) : M Renderer unit :=
  let v1 := index arguments 0 in
  let v2 := index arguments 1 in
  let v3 := index arguments 2 in
  let* shaderProgram := _getShader "lightVert" "lightTextureFrag" in
  useProgram shaderProgram;;
  let* count := gets pointLightCount in
  let* l := getUniformLocation shaderProgram
              ("uPointLightColor[" +:+ pretty count +:+ "]") in
  setProperty shaderProgram "uPointLightColor" l;;
  let* colors := lift (color [v1; v2; v3]) in
  let* uPointLightColor := getProperty shaderProgram "uPointLightColor" in
  uniform3f uPointLightColor
    (index colors 0) (index colors 1) (index colors 2);;
  let* xyz := lift (trailingVector arguments) in
  let '(_x, _y, _z) := xyz in
  let* count := gets pointLightCount in
  let* l := getUniformLocation shaderProgram
              ("uPointLightLocation[" +:+ pretty count +:+ "]") in
  setProperty shaderProgram "uPointLightLocation" l;;
  let* uPointLightLocation :=
    getProperty shaderProgram "uPointLightLocation" in
  uniform3f uPointLightLocation _x _y _z;;
  let* l := getUniformLocation shaderProgram "uMaterialColor" in
  setProperty shaderProgram "uMaterialColor" l;;
  let* uMaterialColor := getProperty shaderProgram "uMaterialColor" in
  uniform4f uMaterialColor one one one one;;
  modify (λ r, setPointLightCount (pointLightCount r + 1) r);;
  let* l := getUniformLocation shaderProgram "uPointLightCount" in
  setProperty shaderProgram "uPointLightCount" l;;
  let* uPointLightCount := getProperty shaderProgram "uPointLightCount" in
  let* count := gets pointLightCount in
  uniform1i uPointLightCount count;;
  ret tt.

(** The three light types, and the registration function of each. *)
Inductive lightType : Type := Ambient | Directional | Point.

Global Instance lightType_eq_dec : EqDecision lightType.
Proof. solve_decision. Defined.

Definition register (t : lightType) : list value → M Renderer unit :=
  match t with
  | Ambient => ambientLight
  | Directional => directionalLight
  | Point => pointLight
  end.

(** Consecutive calls of one registration function, one argument list
    per call; a call that throws ends the sequence. *)
Fixpoint registerAll (t : lightType) (calls : list (list value))
  : M Renderer unit :=
  match calls with
  | [] => ret tt
  | arguments :: rest => register t arguments;; registerAll t rest
  end.

End WithColor.

(** The counter of a light type, and the names of its uniforms. *)
Definition lightCount (t : lightType) (r : Renderer) : N :=
  match t with
  | Ambient => ambientLightCount r
  | Directional => directionalLightCount r
  | Point => pointLightCount r
  end.

Definition lightProgram : program := ("lightVert", "lightTextureFrag").

Definition colorName (t : lightType) (i : N) : string :=
  match t with
  | Ambient => "uAmbientColor["
  | Directional => "uDirectionalColor["
  | Point => "uPointLightColor["
  end +:+ pretty i +:+ "]".

Definition vectorName (t : lightType) (i : N) : option string :=
  match t with
  | Ambient => None
  | Directional => Some ("uLightingDirection[" +:+ pretty i +:+ "]")
  | Point => Some ("uPointLightLocation[" +:+ pretty i +:+ "]")
  end.

Definition countName (t : lightType) : string :=
  match t with
  | Ambient => "uAmbientLightCount"
  | Directional => "uDirectionalLightCount"
  | Point => "uPointLightCount"
  end.

(** What a call hands to the color resolver: [ambientLight] its whole
    argument list, the other two their first three parameters. *)
Definition colorArguments (t : lightType) (arguments : list value)
  : list value :=
  match t with
  | Ambient => arguments
  | Directional | Point =>
      [index arguments 0; index arguments 1; index arguments 2]
  end.

(** The vector a call reads from its arguments: none for an ambient
    light. *)
Definition geometry (t : lightType) (arguments : list value)
  : completion (option (value * value * value)) :=
  match t with
  | Ambient => Normal None
  | Directional | Point =>
      match trailingVector arguments with
      | Normal v => Normal (Some v)
      | Throw e => Throw e
      end
  end.

(** The first three channels of a resolved color, as a uniform value;
    opaque white, the default material color. *)
Definition rgb (colors : list value) : uniformValue :=
  Uniform3f (index colors 0) (index colors 1) (index colors 2).

Definition white : uniformValue := Uniform4f one one one one.

Definition lightLocation (name : string) : option location :=
  Some (Location lightProgram name).

(** The calls of one registration, by the stage it reaches: up to the
    color resolver, the color write, the rest. [n] is the counter of the
    type when the call starts. *)
Definition callsBegin (t : lightType) (n : N) : list glcall :=
  [GetShader "lightVert" "lightTextureFrag"; UseProgram lightProgram;
   GetUniformLocation lightProgram (colorName t n)].

Definition callsColor (t : lightType) (n : N) (colors : list value)
  : list glcall :=
  [SetUniform (lightLocation (colorName t n)) (rgb colors)].

Definition callsVector (t : lightType) (n : N)
    (v : option (value * value * value)) : list glcall :=
  match vectorName t n, v with
  | Some name, Some (x, y, z) =>
      [GetUniformLocation lightProgram name;
       SetUniform (lightLocation name) (Uniform3f x y z)]
  | _, _ => []
  end.

Definition callsEnd (t : lightType) (n : N) : list glcall :=
  [GetUniformLocation lightProgram "uMaterialColor";
   SetUniform (lightLocation "uMaterialColor") white;
   GetUniformLocation lightProgram (countName t);
   SetUniform (lightLocation (countName t)) (Uniform1i (n + 1))].

(** The uniform values after the vector write of a call. *)
Definition withVector (t : lightType) (n : N)
    (v : option (value * value * value))
    (m : gmap (program * string) uniformValue)
  : gmap (program * string) uniformValue :=
  match vectorName t n, v with
  | Some name, Some (x, y, z) => <[(lightProgram, name) := Uniform3f x y z]> m
  | _, _ => m
  end.

(** The properties of the shader program object after a call: the
    location of the color slot once the call has started, the others once
    it has got past reading its vector. *)
Definition colorProperty (t : lightType) : string :=
  match t with
  | Ambient => "uAmbientColor"
  | Directional => "uDirectionalColor"
  | Point => "uPointLightColor"
  end.

Definition vectorProperty (t : lightType) : option string :=
  match t with
  | Ambient => None
  | Directional => Some "uLightingDirection"
  | Point => Some "uPointLightLocation"
  end.

Definition propertiesBegin (t : lightType) (n : N)
    (ps : gmap (program * string) location)
  : gmap (program * string) location :=
  <[(lightProgram, colorProperty t) := Location lightProgram (colorName t n)]>
    ps.

Definition propertiesEnd (t : lightType) (n : N)
    (ps : gmap (program * string) location)
  : gmap (program * string) location :=
  <[(lightProgram, countName t) := Location lightProgram (countName t)]>
    (<[(lightProgram, "uMaterialColor")
       := Location lightProgram "uMaterialColor"]>
       (match vectorProperty t, vectorName t n with
        | Some f, Some name =>
            <[(lightProgram, f) := Location lightProgram name]>
              (propertiesBegin t n ps)
        | _, _ => propertiesBegin t n ps
        end)).

(** The uniform values after a call that returns. *)
Definition written (t : lightType) (n : N) (colors : list value)
    (v : option (value * value * value))
    (m : gmap (program * string) uniformValue)
  : gmap (program * string) uniformValue :=
  <[(lightProgram, countName t) := Uniform1i (n + 1)]>
    (<[(lightProgram, "uMaterialColor") := white]>
       (withVector t n v
          (<[(lightProgram, colorName t n) := rgb colors]> m))).

(** The three counters, and the three with the one of [t] advanced. *)
Definition counters (r : Renderer) : N * N * N :=
  (ambientLightCount r, directionalLightCount r, pointLightCount r).

Definition advance (t : lightType) (c : N * N * N) : N * N * N :=
  let '(a, d, p) := c in
  match t with
  | Ambient => (a + 1, d, p)%N
  | Directional => (a, d + 1, p)%N
  | Point => (a, d, p + 1)%N
  end.

(** Two results of the color resolver with the same outcome and, when
    they are colors, the same first three channels. *)
Definition sameRGB (c c' : completion (list value)) : Prop :=
  match c, c' with
  | Normal a, Normal b => rgb a = rgb b
  | Throw e, Throw e' => e = e'
  | _, _ => False
  end.

(** A resolver with the fourth channel of every color replaced. *)
Definition withAlpha (alpha : value)
    (color : list value → completion (list value))
  : list value → completion (list value) :=
  λ args, match color args with
          | Normal c => Normal [index c 0; index c 1; index c 2; alpha]
          | Throw e => Throw e
          end.

(** The light registered by a call with these arguments occupies index
    [i] of the arrays of its type: the color slot of that index holds
    the first three channels of its resolved color and, for a directional
    or point light, the vector slot holds its vector. *)
Definition occupies (color : list value → completion (list value))
    (t : lightType) (arguments : list value) (i : N) (r : Renderer) : Prop :=
  ∃ colors v,
    color (colorArguments t arguments) = Normal colors ∧
    geometry t arguments = Normal v ∧
    uniforms r !! (lightProgram, colorName t i) = Some (rgb colors) ∧
    match vectorName t i, v with
    | Some name, Some (x, y, z) =>
        uniforms r !! (lightProgram, name) = Some (Uniform3f x y z)
    | None, None => True
    | _, _ => False
    end.

(** The arguments a registration of type [t] goes through with: the
    color resolver answers on what it is handed and, for a directional or
    point light, the vector can be read. *)
Definition accepts (color : list value → completion (list value))
    (t : lightType) (arguments : list value) : bool :=
  match color (colorArguments t arguments), geometry t arguments with
  | Normal _, Normal _ => true
  | _, _ => false
  end.

(** The last argument of a call, [args[args.length-1]]. *)
Definition lastArgument (arguments : list value) : value :=
  index arguments (Z.of_nat (length arguments) - 1).

(** [undefined] and [null], the two values no property can be read
    from. *)
Definition nullish (v : value) : bool :=
  match v with
  | VUndefined | VNull => true
  | _ => false
  end.

(** A renderer at the start of a frame: counters at zero, no program in
    use, nothing written. *)
Definition freshRenderer : Renderer := mkRenderer 0 0 0 None ∅ ∅ [].

(** Modelled from the spec: the color resolver is not among the sources.
    This instance covers what the spec's scenarios use, numbers in the
    default range 0-255: one gray value, or red, green and blue, each with
    an optional alpha; the channels come back in that range
    ([ambientLight(150)] resolves to (150, 150, 150)). Anything else is
    refused. *)
Definition colorRGB255 (args : list value) : completion (list value) :=
  let opaque := VNum 255%Q in
  match args with
  | [VNum g] => Normal [VNum g; VNum g; VNum g; opaque]
  | [VNum g; VNum a] => Normal [VNum g; VNum g; VNum g; VNum a]
  | [VNum r; VNum g; VNum b] => Normal [VNum r; VNum g; VNum b; opaque]
  | [VNum r; VNum g; VNum b; VNum a] => Normal [VNum r; VNum g; VNum b; VNum a]
  | _ => Throw (Error "is not a valid color representation.")
  end.

(** Registrations of any types one after the other, each call with its
    type and its argument list; a call that throws ends the sequence. *)
Fixpoint registerEach (color : list value → completion (list value))
    (calls : list (lightType * list value)) : M Renderer unit :=
  match calls with
  | [] => ret tt
  | (t, arguments) :: rest =>
      register color t arguments;; registerEach color rest
  end.

(** How many calls of a sequence register a light of type [t]. *)
Definition registrations (t : lightType)
    (calls : list (lightType * list value)) : N :=
  N.of_nat (length (filter (λ c, c.1 = t) calls)).

(** The color and vector slots of index [j] of type [t] hold in [r'] what
    they hold in [r]. *)
Definition sameSlots (t : lightType) (j : N) (r r' : Renderer) : Prop :=
  uniforms r' !! (lightProgram, colorName t j)
  = uniforms r !! (lightProgram, colorName t j) ∧
  ∀ name, vectorName t j = Some name →
    uniforms r' !! (lightProgram, name) = uniforms r !! (lightProgram, name).

(** The count uniform of a type holds the counter of the type. *)
Definition inSync (t : lightType) (r : Renderer) : Prop :=
  uniforms r !! (lightProgram, countName t)
  = Some (Uniform1i (lightCount t r)).

End Lights.

(** ** Loading and displaying images *)

Module Image.

(** A canvas element: its size and the bytes of its bitmap, four per
    pixel. *)
Record Canvas : Type := mkCanvas {
  width : nat;
  height : nat;
  data : list Z
}.

(** A [p5.Image]: its size as the sketch set it, and the canvas that
    backs it, by reference. *)
Record p5Image : Type := mkImage {
  img_width : value;
  img_height : value;
  canvas : nat
}.

(** A tint: the four numbers of the array [this._tint]. *)
Definition tintColor : Type := Q * Q * Q * Q.

(** The rectangle [canvas.modeAdjust] answers. *)
Record rect : Type := mkRect { rx : value; ry : value; rw : value; rh : value }.

(** The sketch as these functions see it: [this._imageMode],
    [this._tint] ([None] for [null]), the canvas behind
    [this._curElement.context], and the canvas elements of the page by
    reference. *)
Record P5 : Type := mkP5 {
  _imageMode : value;
  _tint : option tintColor;
  _curElement : nat;
  canvases : gmap nat Canvas
}.

Definition setImageMode (m : value) (s : P5) : P5 :=
  mkP5 m (_tint s) (_curElement s) (canvases s).

Definition setTint (t : option tintColor) (s : P5) : P5 :=
  mkP5 (_imageMode s) t (_curElement s) (canvases s).

Definition setCanvases (cs : gmap nat Canvas) (s : P5) : P5 :=
  mkP5 (_imageMode s) (_tint s) (_curElement s) cs.

(** A bitmap of transparent black. *)
Definition blank (w h : nat) : list Z := replicate (4 * w * h) 0%Z.

(** [document.createElement('canvas')]: a new element, 300 by 150,
    under a reference no element has yet. *)
Definition createCanvasElement : M P5 nat :=
  let* cs := gets canvases in
  let id := fresh (dom cs) in
  modify (setCanvases (<[id := mkCanvas 300 150 (blank 300 150)]> cs));;
  ret id.

(** The canvas a reference points to; the sketch holds no reference to
    a canvas that is not there, and following one is a TypeError. *)
Definition getCanvas (id : nat) : M P5 Canvas :=
  let* cs := gets canvases in
  match cs !! id with
  | Some c => ret c
  | None => lift (Throw (TypeError "Cannot read property of undefined"))
  end.

(** [c.width = w] and [c.height = h]: the bitmap is cleared. *)
Definition setWidth (id : nat) (w : nat) : M P5 unit :=
  let* c := getCanvas id in
  modify (λ s, setCanvases
                 (<[id := mkCanvas w (height c) (blank w (height c))]>
                    (canvases s)) s).

Definition setHeight (id : nat) (h : nat) : M P5 unit :=
  let* c := getCanvas id in
  modify (λ s, setCanvases
                 (<[id := mkCanvas (width c) h (blank (width c) h)]>
                    (canvases s)) s).

(** [ctx.createImageData(w, h)]: a zeroed array, refused for an empty
    area. *)
Definition createImageData (w h : nat) : M P5 (list Z) :=
  if (w =? 0)%nat || (h =? 0)%nat
  then lift (Throw (Error "IndexSizeError"))
  else ret (blank w h).

(** [ctx.putImageData(id, 0, 0)] with an array of the size of the
    canvas. *)
Definition putImageData (id : nat) (pixels : list Z) : M P5 unit :=
  let* c := getCanvas id in
  modify (λ s, setCanvases
                 (<[id := mkCanvas (width c) (height c) pixels]>
                    (canvases s)) s).

Section WithEnvironment.

(** What the file takes from modules that are not among the sources:
    the three mode constants, strings by the documentation of
    [imageMode]; [getNormalizedColor]; [Filters._toPixels], the bytes of
    a canvas, which it reads without changing it; [canvas.modeAdjust];
    and from the browser the conversion a byte array applies to a number
    stored in it, and the drawing of one canvas onto another, which
    gives the new state of the target. *)
Variables CORNER CORNERS CENTER : string.
Variable getNormalizedColor : list value → completion tintColor.
Variable _toPixels : Canvas → completion (list Z).
Variable modeAdjust : value → value → value → value → value → rect.
Variable toUint8Clamped : Q → Z.
Variable drawn : Canvas → Canvas → rect → completion Canvas.

(** [this._curElement.context.drawImage(source, x, y, w, h)] *)
Definition drawImage (source : nat) (vals : rect) : M P5 unit :=
  let* target := gets _curElement in
  let* t := getCanvas target in
  let* s := getCanvas source in
  let* t' := lift (drawn t s vals) in
  modify (λ st, setCanvases (<[target := t']> (canvases st)) st).

Definition tint (arguments : list value) : M P5 unit :=
  let* c := lift (getNormalizedColor arguments) in
  modify (setTint (Some c)).

Definition noTint : M P5 unit := modify (setTint None).

(** A byte times a tint channel over 255, as the new array keeps it; a
    read past the end of [pixels] is [undefined], the product is not a
    number, and the array keeps 0. *)
Definition scaled (pixels : list Z) (i : nat) (channel : Q) : Z :=
  match pixels !! i with
  | Some p => toUint8Clamped (inject_Z p * channel / 255)%Q
  | None => 0%Z
  end.

(** The body of the loop at offset [i]: [this._tint[0]] on a tint that
    is [null] throws; a write past the end of [newPixels] is dropped. *)
Definition tintPixel (tint : option tintColor) (pixels : list Z) (i : nat)
    (newPixels : list Z) : completion (list Z) :=
  match tint with
  | None => Throw (TypeError "Cannot read property '0' of null")
  | Some (t0, t1, t2, t3) =>
      Normal (<[i + 3 := scaled pixels (i + 3) t3]>
                (<[i + 2 := scaled pixels (i + 2) t2]>
                   (<[i + 1 := scaled pixels (i + 1) t1]>
                      (<[i := scaled pixels i t0]> newPixels))))
  end.

(** The channel of a tint that meets the byte of offset [j]. *)
Definition channel (t : tintColor) (j : nat) : Q :=
  let '(t0, t1, t2, t3) := t in
  match j mod 4 with
  | 0 => t0
  | 1 => t1
  | 2 => t2
  | _ => t3
  end.

(** The values [i] takes in [for (i = 0; i < n; i += 4)]. *)
Definition offsets (n : nat) : list nat :=
  (λ k, 4 * k) <$> seq 0 ((n + 3) / 4).

Fixpoint tintLoop (tint : option tintColor) (pixels : list Z)
    (steps : list nat) (newPixels : list Z) : completion (list Z) :=
  match steps with
  | [] => Normal newPixels
  | i :: rest =>
      match tintPixel tint pixels i newPixels with
      | Normal newPixels' => tintLoop tint pixels rest newPixels'
      | Throw e => Throw e
      end
  end.

Definition _getTintedImageCanvas (image : p5Image) : M P5 nat :=
  let* c := getCanvas (canvas image) in
  let* pixels := lift (_toPixels c) in
  let* tmpCanvas := createCanvasElement in
  let* c := getCanvas (canvas image) in
  setWidth tmpCanvas (width c);;
  let* c := getCanvas (canvas image) in
  setHeight tmpCanvas (height c);;
  let* c := getCanvas (canvas image) in
  let* newPixels := createImageData (width c) (height c) in
  let* tint := gets _tint in
  let* newPixels :=
    lift (tintLoop tint pixels (offsets (length pixels)) newPixels) in
  putImageData tmpCanvas newPixels;;
  ret tmpCanvas.

Definition image (img : p5Image) (x y width height : value) : M P5 unit :=
  let width := match width with VUndefined => img_width img | _ => width end in
  let height :=
    match height with VUndefined => img_height img | _ => height end in
  let* mode := gets _imageMode in
  let vals := modeAdjust x y width height mode in
  let* tint := gets _tint in
  match tint with
  | Some _ =>
      let* tinted := _getTintedImageCanvas img in
      drawImage tinted vals
  | None => drawImage (canvas img) vals
  end.

Definition imageMode (m : value) : M P5 unit :=
  if strictEqString m CORNER || strictEqString m CORNERS
     || strictEqString m CENTER
  then modify (setImageMode m)
  else ret tt.

End WithEnvironment.

(** Instances of the environment, to run the functions on examples: the
    bytes of a canvas are its bitmap; a number stored in a clamped byte
    array becomes the nearest integer, the even one of two equally near,
    kept within 0 and 255; the rectangle of mode CORNER; a drawing that
    copies the bitmap of the source. *)
Definition bitmapPixels (c : Canvas) : completion (list Z) := Normal (data c).

Definition clampedByte (q : Q) : Z :=
  let f := Qfloor q in
  let nearest :=
    match (q - inject_Z f ?= 1 # 2)%Q with
    | Lt => f
    | Gt => (f + 1)%Z
    | Eq => if Z.even f then f else (f + 1)%Z
    end in
  Z.max 0 (Z.min 255 nearest).

Definition cornerRect (x y w h mode : value) : rect := mkRect x y w h.

Definition copied (target source : Canvas) (vals : rect) : completion Canvas :=
  Normal (mkCanvas (width target) (height target) (data source)).

(** A canvas whose bitmap has four bytes for each pixel of its area. *)
Definition wellFormed (c : Canvas) : Prop :=
  length (data c) = 4 * width c * height c.

(** A value a clamped byte array can hold. *)
Definition isByte (z : Z) : Prop := (0 ≤ z ≤ 255)%Z.

(** One of the three modes [imageMode] accepts. *)
Definition validMode (CORNER CORNERS CENTER : string) (m : value) : Prop :=
  m = VStr CORNER ∨ m = VStr CORNERS ∨ m = VStr CENTER.

End Image.

Import Lights.

(** ** Running the lighting functions *)

(** A write through a location of the program in use. *)
Lemma writeUniform_current a d p q name u us ps cs :
  writeUniform (Some (Location q name)) u (mkRenderer a d p (Some q) us ps cs)
  = mkRenderer a d p (Some q) (<[(q, name) := u]> us) ps cs.
Proof. unfold writeUniform; cbn. by rewrite decide_True. Qed.

(** [run_primitive] evaluates one statement on a renderer given by its
    fields; [step] runs the first statement of a body with it and leaves
    the rest of the body applied to the new renderer. *)
Ltac run_primitive m r :=
  eval cbv beta iota delta
    [bind ret gets modify _getShader useProgram getUniformLocation
     setProperty getProperty glUniform uniform1i uniform3f uniform4f
     ambientLightCount directionalLightCount pointLightCount currentProgram
     uniforms properties calls logCall setCurrentProgram setUniforms
     setProperties setAmbientLightCount setDirectionalLightCount
     setPointLightCount] in (m r).

Ltac step :=
  lazymatch goal with
  | H : ?c = _ |- context [bind (lift ?c) _ _] => rewrite H
  | |- context C [bind (lift (Normal ?a)) ?k ?r] =>
      let g := context C [k a r] in change g; cbv beta iota
  | |- context C [@bind _ _ ?B (lift (Throw ?e)) ?k ?r] =>
      let g := context C [(@Throw B e, r)] in change g
  | |- context C [bind ?m ?k ?r] =>
      let res := run_primitive m r in
      lazymatch res with
      | (Normal ?a, writeUniform ?l ?u ?r') =>
          let g := context C [k a (writeUniform l u r')] in
          change g; cbv beta; rewrite writeUniform_current
      | (Normal (<[?i:=?x]> ?ps !! ?i), ?r') =>
          let g := context C [k (<[i:=x]> ps !! i) r'] in
          change g; cbv beta; rewrite lookup_insert_eq
      | (Normal ?a, ?r') =>
          let g := context C [k a r'] in change g; cbv beta
      end
  end.

(** One registration, in every outcome: what the resolver and the
    arguments decide, and the counters, uniform values and calls the
    renderer is left with. *)
Lemma register_run color t arguments r :
  let n := lightCount t r in
  let out := register color t arguments r in
  currentProgram out.2 = Some lightProgram ∧
  match color (colorArguments t arguments) with
  | Throw e =>
      out.1 = Throw e ∧ counters out.2 = counters r ∧
      uniforms out.2 = uniforms r ∧
      calls out.2 = calls r ++ callsBegin t n ∧
      properties out.2 = propertiesBegin t n (properties r)
  | Normal colors =>
      match geometry t arguments with
      | Throw e =>
          out.1 = Throw e ∧ counters out.2 = counters r ∧
          uniforms out.2
          = <[(lightProgram, colorName t n) := rgb colors]> (uniforms r) ∧
          calls out.2 = calls r ++ callsBegin t n ++ callsColor t n colors ∧
          properties out.2 = propertiesBegin t n (properties r)
      | Normal v =>
          out.1 = Normal tt ∧ counters out.2 = advance t (counters r) ∧
          uniforms out.2 = written t n colors v (uniforms r) ∧
          calls out.2
          = calls r ++ callsBegin t n ++ callsColor t n colors
              ++ callsVector t n v ++ callsEnd t n ∧
          properties out.2 = propertiesEnd t n (properties r)
      end
  end.
Proof.
  intros n out. destruct r as [a d p q us ps cs].
  destruct t; cbn [lightCount colorArguments geometry] in *;
    (destruct (color _) as [colors|e] eqn:Ec;
     [try destruct (trailingVector arguments) as [[[x y] z]|e] eqn:Ev|]);
    (eassert (out = _) as ->
       by (subst out; unfold register, ambientLight, directionalLight,
             pointLight; cbv zeta; repeat step; reflexivity));
    cbn [fst snd currentProgram uniforms calls counters advance properties
         ambientLightCount directionalLightCount pointLightCount];
    rewrite <- ?app_assoc; done.
Qed.

(** A registration that returns: what was resolved, and the renderer it
    leaves. *)
Lemma register_Normal color t arguments r u r' :
  register color t arguments r = (Normal u, r') →
  ∃ colors v,
    color (colorArguments t arguments) = Normal colors ∧
    geometry t arguments = Normal v ∧
    currentProgram r' = Some lightProgram ∧
    counters r' = advance t (counters r) ∧
    uniforms r' = written t (lightCount t r) colors v (uniforms r) ∧
    calls r'
    = calls r ++ callsBegin t (lightCount t r)
        ++ callsColor t (lightCount t r) colors
        ++ callsVector t (lightCount t r) v ++ callsEnd t (lightCount t r).
Proof.
  intros E. pose proof (register_run color t arguments r) as H.
  cbv zeta in H. rewrite E in H. cbn [fst snd] in H.
  destruct H as [Hp H].
  destruct (color _) as [colors|]; [|by destruct H].
  destruct (geometry _ _) as [v|]; [|by destruct H].
  exists colors, v. by destruct H as (_ & ? & ? & ? & _).
Qed.

(** The counter of each type, from the triple of counters. *)
Lemma lightCount_advance t t' r r' :
  counters r' = advance t (counters r) →
  lightCount t' r' = if decide (t' = t) then (lightCount t' r + 1)%N
                     else lightCount t' r.
Proof.
  unfold counters, advance. destruct t, t'; intros [= ? ? ?]; by cbn.
Qed.

Lemma lightCount_counters t r r' :
  counters r' = counters r → lightCount t r' = lightCount t r.
Proof. unfold counters. destruct t; intros [= ? ? ?]; by cbn. Qed.

(** Two renderers with the same fields are the same. *)
Lemma Renderer_eq r1 r2 :
  counters r1 = counters r2 → currentProgram r1 = currentProgram r2 →
  uniforms r1 = uniforms r2 → properties r1 = properties r2 →
  calls r1 = calls r2 → r1 = r2.
Proof.
  destruct r1, r2; unfold counters; cbn. intros [= -> -> ->] -> -> -> ->. done.
Qed.

(** ** Reading the vector *)

Lemma index_app (pre l : list value) (i : Z) :
  (0 ≤ i)%Z → index (pre ++ l) (Z.of_nat (length pre) + i) = index l i.
Proof.
  intros Hi. unfold index.
  destruct (Z.ltb_spec (Z.of_nat (length pre) + i) 0); [lia|].
  destruct (Z.ltb_spec i 0); [lia|].
  replace (Z.to_nat (Z.of_nat (length pre) + i))
    with (length pre + Z.to_nat i) by lia.
  by rewrite app_nth2_plus.
Qed.

(** A number in last place: the last three arguments, whatever the two
    before the last are. *)
Lemma trailingVector_numeric pre a b z :
  trailingVector (pre ++ [a; b; VNum z]) = Normal (a, b, VNum z).
Proof.
  unfold trailingVector. cbv zeta. rewrite length_app. cbn [length].
  replace (Z.of_nat (length pre + 3) - 1)%Z
    with (Z.of_nat (length pre) + 2)%Z by lia.
  replace (Z.of_nat (length pre + 3) - 2)%Z
    with (Z.of_nat (length pre) + 1)%Z by lia.
  replace (Z.of_nat (length pre + 3) - 3)%Z
    with (Z.of_nat (length pre) + 0)%Z by lia.
  by rewrite !index_app by lia.
Qed.

(** An object in last place: its fields [x], [y] and [z]. *)
Lemma trailingVector_object pre fs :
  trailingVector (pre ++ [VObj fs])
  = Normal (field fs "x", field fs "y", field fs "z").
Proof.
  unfold trailingVector. cbv zeta. rewrite length_app. cbn [length].
  replace (Z.of_nat (length pre + 1) - 1)%Z
    with (Z.of_nat (length pre) + 0)%Z by lia.
  by rewrite !index_app by lia.
Qed.

(** What decides the outcome of the reading when the last argument is no
    number: [undefined] and [null] (a missing argument reads [undefined])
    throw, every other value answers. *)
Lemma trailingVector_nullish arguments :
  lastArgument arguments = VUndefined ∨ lastArgument arguments = VNull →
  ∃ msg, trailingVector arguments = Throw (TypeError msg).
Proof.
  unfold trailingVector, lastArgument. cbv zeta.
  intros [-> | ->]; cbn; eauto.
Qed.

Lemma trailingVector_member arguments :
  typeof (lastArgument arguments) ≠ "number" →
  lastArgument arguments ≠ VUndefined → lastArgument arguments ≠ VNull →
  ∃ x y z,
    getMember (lastArgument arguments) "x" = Normal x ∧
    getMember (lastArgument arguments) "y" = Normal y ∧
    getMember (lastArgument arguments) "z" = Normal z ∧
    trailingVector arguments = Normal (x, y, z).
Proof.
  unfold trailingVector, lastArgument. cbv zeta.
  destruct (index arguments _); cbn; try done; eauto 10.
Qed.

(** ** Uniform names *)

Lemma length_append (s1 s2 : string) :
  String.length (s1 +:+ s2) = String.length s1 + String.length s2.
Proof.
  induction s1 as [|a s1 IH]; [done|].
  change (S (String.length (s1 +:+ s2))
          = S (String.length s1 + String.length s2)).
  by rewrite IH.
Qed.

Lemma append_inj_r (s1 s2 t : string) : s1 +:+ t = s2 +:+ t → s1 = s2.
Proof.
  revert s2. induction s1 as [|a s1 IH]; intros [|b s2] E.
  - done.
  - apply (f_equal String.length) in E.
    rewrite !length_append in E. cbn in E. lia.
  - apply (f_equal String.length) in E.
    rewrite !length_append in E. cbn in E. lia.
  - change (String a (s1 +:+ t) = String b (s2 +:+ t)) in E.
    injection E as -> E. f_equal. by apply IH.
Qed.

(** The indexed names of one array are distinct for distinct indices. *)
Lemma indexed_inj (array : string) (i j : N) :
  array +:+ pretty i +:+ "]" = array +:+ pretty j +:+ "]" → i = j.
Proof.
  intros E. apply (inj (String.app array)) in E.
  apply append_inj_r in E. by apply (inj pretty) in E.
Qed.

Lemma colorName_inj t i j : colorName t i = colorName t j → i = j.
Proof. destruct t; apply indexed_inj. Qed.

Lemma vectorName_inj t i j name :
  vectorName t i = Some name → vectorName t j = Some name → i = j.
Proof.
  destruct t; cbn; [done|..]; intros [= <-] [= E];
    symmetry in E; by apply indexed_inj in E.
Qed.

Ltac distinct_names :=
  let E := fresh in
  intros E; cbv [String.append] in E; discriminate E.

Lemma colorName_vectorName t t' i j : vectorName t' j ≠ Some (colorName t i).
Proof. destruct t, t'; cbn; try done; intros [= E]; revert E; distinct_names. Qed.

Lemma colorName_material t i : colorName t i ≠ "uMaterialColor".
Proof. destruct t; distinct_names. Qed.

Lemma colorName_countName t t' i : colorName t i ≠ countName t'.
Proof. destruct t, t'; distinct_names. Qed.

Lemma vectorName_material t i : vectorName t i ≠ Some "uMaterialColor".
Proof. destruct t; cbn; try done; intros [= E]; revert E; distinct_names. Qed.

Lemma vectorName_countName t t' i : vectorName t i ≠ Some (countName t').
Proof.
  destruct t, t'; cbn; try done; intros [= E]; revert E; distinct_names.
Qed.

Lemma countName_material t : countName t ≠ "uMaterialColor".
Proof. destruct t; distinct_names. Qed.

(** ** The uniform values a call leaves *)

Section Written.

Variables (t : lightType) (n : N) (colors : list value).
Variable v : option (value * value * value).
Variable m : gmap (program * string) uniformValue.

Lemma written_count :
  written t n colors v m !! (lightProgram, countName t)
  = Some (Uniform1i (n + 1)).
Proof. unfold written. by rewrite lookup_insert_eq. Qed.

Lemma written_material :
  written t n colors v m !! (lightProgram, "uMaterialColor") = Some white.
Proof.
  unfold written. rewrite lookup_insert_ne, lookup_insert_eq; [done|].
  intros [= E]. by apply countName_material in E.
Qed.

Lemma written_vector name x y z :
  vectorName t n = Some name → v = Some (x, y, z) →
  written t n colors v m !! (lightProgram, name) = Some (Uniform3f x y z).
Proof.
  intros Hn ->. unfold written, withVector. rewrite Hn.
  rewrite lookup_insert_ne, lookup_insert_ne, lookup_insert_eq; [done|..].
  - intros [= E]. apply (vectorName_material t n). by rewrite Hn, E.
  - intros [= E]. apply (vectorName_countName t t n). by rewrite Hn, E.
Qed.

Lemma written_color :
  written t n colors v m !! (lightProgram, colorName t n) = Some (rgb colors).
Proof.
  unfold written, withVector.
  rewrite !lookup_insert_ne.
  - destruct (vectorName t n) as [name|] eqn:Hn, v as [[[x y] z]|];
      rewrite ?lookup_insert_eq; try done.
    rewrite lookup_insert_ne, lookup_insert_eq; [done|].
    intros [= E]. apply (colorName_vectorName t t n n). by rewrite Hn, E.
  - intros [= E]. symmetry in E. by apply colorName_material in E.
  - intros [= E]. symmetry in E. by apply colorName_countName in E.
Qed.

(** Every other uniform keeps its value. *)
Lemma written_other p name :
  name ≠ countName t → name ≠ "uMaterialColor" →
  vectorName t n ≠ Some name → name ≠ colorName t n →
  written t n colors v m !! (p, name) = m !! (p, name).
Proof.
  intros H1 H2 H3 H4. unfold written, withVector.
  rewrite !lookup_insert_ne by congruence.
  destruct (vectorName t n) as [name'|], v as [[[x y] z]|];
    rewrite ?lookup_insert_ne by congruence; done.
Qed.

End Written.

(** The outcome of a call depends on the resolved color through its
    first three channels only, and on the arguments through what the
    resolver receives and the vector read. *)
Lemma register_congr color color' t arguments arguments' r :
  sameRGB (color (colorArguments t arguments))
          (color' (colorArguments t arguments')) →
  geometry t arguments = geometry t arguments' →
  register color t arguments r = register color' t arguments' r.
Proof.
  intros Hc Hg.
  destruct (register_run color t arguments r) as [Hp H].
  destruct (register_run color' t arguments' r) as [Hp' H'].
  rewrite <- Hg in H'. unfold sameRGB in Hc.
  destruct (register color t arguments r) as [c1 r1].
  destruct (register color' t arguments' r) as [c2 r2].
  cbn [fst snd] in *.
  assert (c1 = c2 ∧ counters r1 = counters r2 ∧ uniforms r1 = uniforms r2
          ∧ calls r1 = calls r2 ∧ properties r1 = properties r2)
    as (-> & ? & ? & ? & ?).
  { destruct (color _) as [a|e], (color' _) as [b|e']; try done.
    - destruct (geometry t arguments) as [v|e];
        destruct H as (-> & -> & -> & -> & ->),
                 H' as (-> & -> & -> & -> & ->);
        unfold written, callsColor; by rewrite Hc.
    - destruct H as (-> & -> & -> & -> & ->),
               H' as (-> & -> & -> & -> & ->). by rewrite Hc. }
  f_equal. apply Renderer_eq; congruence.
Qed.

Lemma index_app_l (pre l : list value) (i : Z) :
  (0 ≤ i < Z.of_nat (length pre))%Z → index (pre ++ l) i = index pre i.
Proof.
  intros Hi. unfold index. destruct (Z.ltb_spec i 0); [lia|].
  apply app_nth1. lia.
Qed.

(** ** The scenarios of the specification *)

Example ambientLight_150 :
  let out := ambientLight colorRGB255 [VNum 150] freshRenderer in
  out.1 = Normal tt ∧
  uniforms out.2 !! (lightProgram, "uAmbientColor[0]")
  = Some (Uniform3f (VNum 150) (VNum 150) (VNum 150)) ∧
  uniforms out.2 !! (lightProgram, "uAmbientLightCount") = Some (Uniform1i 1) ∧
  ambientLightCount out.2 = 1%N.
Proof. cbv zeta. repeat split; vm_compute; reflexivity. Qed.

Example directionalLight_scalars :
  let out :=
    directionalLight colorRGB255
      [VNum 250; VNum 250; VNum 250; VNum (1 # 2); VNum (- (1 # 2));
       VNum (1 # 4)]
      freshRenderer in
  out.1 = Normal tt ∧
  uniforms out.2 !! (lightProgram, "uDirectionalColor[0]")
  = Some (Uniform3f (VNum 250) (VNum 250) (VNum 250)) ∧
  uniforms out.2 !! (lightProgram, "uLightingDirection[0]")
  = Some (Uniform3f (VNum (1 # 2)) (VNum (- (1 # 2))) (VNum (1 # 4))) ∧
  directionalLightCount out.2 = 1%N.
Proof. cbv zeta. repeat split; vm_compute; reflexivity. Qed.

Example pointLight_vector_object :
  let out :=
    pointLight colorRGB255
      [VNum 250; VNum 250; VNum 250;
       VObj [("x", VNum 0); ("y", VNum 0); ("z", VNum 0)]]
      freshRenderer in
  out.1 = Normal tt ∧
  uniforms out.2 !! (lightProgram, "uPointLightLocation[0]")
  = Some (Uniform3f (VNum 0) (VNum 0) (VNum 0)).
Proof. cbv zeta. repeat split; vm_compute; reflexivity. Qed.

Example pointLight_twice :
  let out :=
    registerAll colorRGB255 Point
      [[VNum 250; VNum 250; VNum 250; VNum 1; VNum 2; VNum 3];
       [VNum 10; VNum 20; VNum 30; VNum 4; VNum 5; VNum 6]]
      freshRenderer in
  out.1 = Normal tt ∧
  uniforms out.2 !! (lightProgram, "uPointLightColor[1]")
  = Some (Uniform3f (VNum 10) (VNum 20) (VNum 30)) ∧
  uniforms out.2 !! (lightProgram, "uPointLightLocation[0]")
  = Some (Uniform3f (VNum 1) (VNum 2) (VNum 3)) ∧
  uniforms out.2 !! (lightProgram, "uPointLightCount") = Some (Uniform1i 2).
Proof. cbv zeta. repeat split; vm_compute; reflexivity. Qed.

Example pointLight_null_vector :
  let out :=
    pointLight colorRGB255 [VNum 250; VNum 250; VNum 250; VNull]
      freshRenderer in
  out.1 = Throw (TypeError "Cannot read property 'x' of null") ∧
  uniforms out.2 !! (lightProgram, "uPointLightColor[0]")
  = Some (Uniform3f (VNum 250) (VNum 250) (VNum 250)) ∧
  uniforms out.2 !! (lightProgram, "uPointLightLocation[0]") = None ∧
  pointLightCount out.2 = 0%N.
Proof. cbv zeta. repeat split; vm_compute; reflexivity. Qed.

(** ** The claims on the lighting functions *)

(** A uniform write found in an explicit list of calls. *)
Ltac set_uniform_in H :=
  repeat (apply elem_of_cons in H as [H|H]);
  try (by apply elem_of_nil in H);
  try discriminate H;
  injection H as -> ->; unfold lightLocation, lightProgram; eauto.

(** C8. Every registration, whatever its type, its arguments and its
    outcome, starts by asking the renderer for the program of the stage
    names 'lightVert' and 'lightTextureFrag' and by making that program
    the one in use: these are the first two calls it adds, so that every
    uniform write of the call comes after them; each of these writes goes
    through a location of that same program, which is still the program
    in use when the call ends. *)
Theorem C8_lighting_program_first color t arguments r :
  ∃ rest,
    calls (register color t arguments r).2
    = calls r ++ GetShader "lightVert" "lightTextureFrag"
        :: UseProgram ("lightVert", "lightTextureFrag") :: rest ∧
    currentProgram (register color t arguments r).2
    = Some ("lightVert", "lightTextureFrag") ∧
    ∀ l u, SetUniform l u ∈ rest →
      ∃ name, l = Some (Location ("lightVert", "lightTextureFrag") name).
Proof.
  destruct (register_run color t arguments r) as [Hp H].
  destruct (color _) as [colors|e]; [destruct (geometry _ _) as [v|e]|];
    destruct H as (_ & _ & _ & -> & _); (eexists; split; [reflexivity|]);
    (split; [done|]); intros l u Hin; cbn [app] in Hin;
    unfold callsVector in Hin;
    try (destruct (vectorName _ _), v as [[[x y] z]|]); cbn [app] in Hin;
    set_uniform_in Hin.
Qed.

(** C7. A registration that returns adds exactly 1 to the counter of its
    own light type and leaves the other two counters as they were; one
    that throws leaves all three as they were. So no call of the three
    functions lowers a counter. *)
Theorem C7_one_counter_advances color t arguments r :
  match register color t arguments r with
  | (Normal _, r') =>
      ∀ t', lightCount t' r'
            = if decide (t' = t) then (lightCount t' r + 1)%N
              else lightCount t' r
  | (Throw _, r') => ∀ t', lightCount t' r' = lightCount t' r
  end ∧
  ∀ t', (lightCount t' r ≤ lightCount t' (register color t arguments r).2)%N.
Proof.
  destruct (register_run color t arguments r) as [_ H].
  destruct (register color t arguments r) as [c r'] eqn:E. cbn [fst snd] in *.
  assert (match c with
          | Normal _ => counters r' = advance t (counters r)
          | Throw _ => counters r' = counters r
          end) as Hc.
  { destruct (color _); [destruct (geometry _ _)|];
      destruct H as (-> & ? & _); done. }
  destruct c.
  - split; intros t'; rewrite (lightCount_advance t t' r r' Hc);
      [done|]. destruct (decide _); lia.
  - split; intros t'; rewrite (lightCount_counters t' r r' Hc); [done|lia].
Qed.

(** A run that ends normally, from its first component alone. *)
Lemma returns_Normal {S} (out : completion unit * S) :
  out.1 = Normal tt → out = (Normal tt, out.2).
Proof. destruct out as [c s]. cbn. by intros ->. Qed.

(** A registration returns on the arguments it accepts. *)
Lemma register_returns color t arguments r :
  accepts color t arguments = true →
  ∃ r', register color t arguments r = (Normal tt, r').
Proof.
  unfold accepts. intros Ha.
  destruct (register_run color t arguments r) as [_ H].
  destruct (color _) as [colors|]; [|done].
  destruct (geometry _ _) as [v|]; [|done].
  destruct H as (H & _). exists (register color t arguments r).2.
  by apply returns_Normal.
Qed.

(** C5. A registration that returns, whatever its type and arguments and
    whatever the renderer held before, has written (1, 1, 1, 1) to
    [uMaterialColor] of the lighting program, which is the program in
    use: the call is among those it made, and the uniform holds that
    value when it ends. *)
Theorem C5_default_material_color color t arguments r r' :
  register color t arguments r = (Normal tt, r') →
  currentProgram r' = Some ("lightVert", "lightTextureFrag") ∧
  uniforms r' !! (("lightVert", "lightTextureFrag"), "uMaterialColor")
  = Some (Uniform4f (VNum 1) (VNum 1) (VNum 1) (VNum 1)) ∧
  ∃ before after,
    calls r'
    = calls r ++ before
        ++ SetUniform
             (Some (Location ("lightVert", "lightTextureFrag")
                      "uMaterialColor"))
             (Uniform4f (VNum 1) (VNum 1) (VNum 1) (VNum 1))
        :: after.
Proof.
  intros E. apply register_Normal in E
    as (colors & v & _ & _ & Hp & _ & Hu & Hc).
  split; [done|]. split.
  - rewrite Hu. apply written_material.
  - rewrite Hc.
    exists (callsBegin t (lightCount t r)
              ++ callsColor t (lightCount t r) colors
              ++ callsVector t (lightCount t r) v
              ++ [GetUniformLocation lightProgram "uMaterialColor"]).
    exists [GetUniformLocation lightProgram (countName t);
            SetUniform (lightLocation (countName t))
              (Uniform1i (lightCount t r + 1))].
    rewrite <- !app_assoc. reflexivity.
Qed.

Lemma C5_default_material_color_witness :
  uniforms
    (register colorRGB255 Point
       [VNum 250; VNum 250; VNum 250; VNum 0; VNum 0; VNum 0]
       freshRenderer).2
  !! (("lightVert", "lightTextureFrag"), "uMaterialColor")
  = Some (Uniform4f (VNum 1) (VNum 1) (VNum 1) (VNum 1)).
Proof.
  refine (proj1 (proj2 (C5_default_material_color colorRGB255 Point _
                          freshRenderer _ _))).
  apply returns_Normal. vm_compute. reflexivity.
Defined.

(** C6. The light functions read the first three channels of the resolved
    color and nothing else of it: the color write of a call is a
    [uniform3f] of channels 0, 1 and 2 at the indexed color slot, and two
    resolvers that differ only beyond the third channel, alpha included,
    give the same outcome and leave the same renderer. *)
Theorem C6_alpha_not_forwarded color color' t arguments r :
  (∀ args, sameRGB (color args) (color' args)) →
  register color t arguments r = register color' t arguments r ∧
  ∀ colors, color (colorArguments t arguments) = Normal colors →
    SetUniform
      (Some (Location ("lightVert", "lightTextureFrag")
               (colorName t (lightCount t r))))
      (Uniform3f (index colors 0) (index colors 1) (index colors 2))
    ∈ calls (register color t arguments r).2.
Proof.
  intros Hc. split; [by apply register_congr|].
  intros colors E. destruct (register_run color t arguments r) as [_ H].
  rewrite E in H.
  destruct (geometry _ _); destruct H as (_ & _ & _ & -> & _);
    rewrite !elem_of_app; right; right; left; by apply list_elem_of_singleton.
Qed.

Lemma C6_alpha_not_forwarded_witness :
  register colorRGB255 Ambient [VNum 150; VNum 40] freshRenderer
  = register (withAlpha (VNum 255) colorRGB255) Ambient [VNum 150; VNum 40]
      freshRenderer.
Proof.
  refine (proj1 (C6_alpha_not_forwarded colorRGB255
                   (withAlpha (VNum 255) colorRGB255) Ambient _
                   freshRenderer _)).
  intros args. unfold sameRGB, withAlpha.
  destruct (colorRGB255 args); reflexivity.
Defined.

(** The vector a directional or point light reads is a vector. *)
Lemma geometry_vector t arguments :
  t = Directional ∨ t = Point →
  geometry t arguments
  = match trailingVector arguments with
    | Normal v => Normal (Some v)
    | Throw e => Throw e
    end.
Proof. by intros [-> | ->]. Qed.

Lemma vectorName_Some t n :
  t = Directional ∨ t = Point → ∃ name, vectorName t n = Some name.
Proof. intros [-> | ->]; cbn; eauto. Qed.

(** C4. With three numbers x, y, z in last place, and with an object in
    last place whose fields [x], [y], [z] hold those numbers, a
    directional or a point light reads the same vector: the last three
    arguments in order in the first case, the fields of the last argument
    in the second. When the color resolver answers on the first three
    arguments of each call, both calls return and each has written that
    vector to the indexed vector uniform of its type; and when the
    arguments before have at least the three parameters of the color, the
    two calls do the same in every respect. *)
Theorem C4_scalars_or_vector_object color t pre x y z fs r colors colors' :
  t = Directional ∨ t = Point →
  field fs "x" = VNum x → field fs "y" = VNum y → field fs "z" = VNum z →
  color (colorArguments t (pre ++ [VNum x; VNum y; VNum z]))
  = Normal colors →
  color (colorArguments t (pre ++ [VObj fs])) = Normal colors' →
  trailingVector (pre ++ [VNum x; VNum y; VNum z])
  = Normal (VNum x, VNum y, VNum z) ∧
  trailingVector (pre ++ [VObj fs]) = Normal (VNum x, VNum y, VNum z) ∧
  (∃ r1 r2 name,
     register color t (pre ++ [VNum x; VNum y; VNum z]) r = (Normal tt, r1) ∧
     register color t (pre ++ [VObj fs]) r = (Normal tt, r2) ∧
     vectorName t (lightCount t r) = Some name ∧
     uniforms r1 !! (("lightVert", "lightTextureFrag"), name)
     = Some (Uniform3f (VNum x) (VNum y) (VNum z)) ∧
     uniforms r2 !! (("lightVert", "lightTextureFrag"), name)
     = Some (Uniform3f (VNum x) (VNum y) (VNum z))) ∧
  (3 ≤ length pre →
   register color t (pre ++ [VNum x; VNum y; VNum z]) r
   = register color t (pre ++ [VObj fs]) r).
Proof.
  intros Ht Hx Hy Hz Hc Hc'.
  assert (trailingVector (pre ++ [VObj fs]) = Normal (VNum x, VNum y, VNum z))
    as Hobj by (by rewrite trailingVector_object, Hx, Hy, Hz).
  pose proof (trailingVector_numeric pre (VNum x) (VNum y) z) as Hnum.
  split; [done|]. split; [done|]. split.
  - assert (∀ arguments,
              trailingVector arguments = Normal (VNum x, VNum y, VNum z) →
              (∃ cs, color (colorArguments t arguments) = Normal cs) →
              ∃ r', register color t arguments r = (Normal tt, r') ∧
                ∀ name, vectorName t (lightCount t r) = Some name →
                  uniforms r' !! (lightProgram, name)
                  = Some (Uniform3f (VNum x) (VNum y) (VNum z))) as Hrun.
    { intros arguments Hv [cs Hcs].
      destruct (register_returns color t arguments r) as [r' E].
      { unfold accepts. by rewrite Hcs, geometry_vector, Hv. }
      exists r'. split; [done|]. intros name Hn.
      apply register_Normal in E as (? & v & _ & Hg & _ & _ & Hu & _).
      rewrite geometry_vector, Hv in Hg by done. injection Hg as <-.
      rewrite Hu. by eapply written_vector. }
    destruct (Hrun _ Hnum) as (r1 & E1 & H1); [by eexists|].
    destruct (Hrun _ Hobj) as (r2 & E2 & H2); [by eexists|].
    destruct (vectorName_Some t (lightCount t r) Ht) as [name Hn].
    exists r1, r2, name. repeat (split; [done|]). split; [by apply H1|].
    by apply H2.
  - intros Hpre. apply register_congr.
    + assert (colorArguments t (pre ++ [VNum x; VNum y; VNum z])
              = colorArguments t (pre ++ [VObj fs])) as ->.
      { destruct Ht as [-> | ->]; cbn [colorArguments];
          by rewrite !index_app_l by lia. }
      unfold sameRGB. by rewrite Hc'.
    + by rewrite !geometry_vector, Hnum, Hobj.
Qed.

Lemma C4_scalars_or_vector_object_witness :
  ∃ r1 r2,
    register colorRGB255 Point
      ([VNum 250; VNum 250; VNum 250] ++ [VNum 1; VNum 2; VNum 3])
      freshRenderer
    = (Normal tt, r1) ∧
    register colorRGB255 Point
      ([VNum 250; VNum 250; VNum 250]
         ++ [VObj [("x", VNum 1); ("y", VNum 2); ("z", VNum 3)]])
      freshRenderer
    = (Normal tt, r2) ∧
    uniforms r1 !! (("lightVert", "lightTextureFrag"), "uPointLightLocation[0]")
    = Some (Uniform3f (VNum 1) (VNum 2) (VNum 3)) ∧
    uniforms r2 !! (("lightVert", "lightTextureFrag"), "uPointLightLocation[0]")
    = Some (Uniform3f (VNum 1) (VNum 2) (VNum 3)).
Proof.
  destruct (C4_scalars_or_vector_object colorRGB255 Point
              [VNum 250; VNum 250; VNum 250] 1 2 3
              [("x", VNum 1); ("y", VNum 2); ("z", VNum 3)] freshRenderer
              [VNum 250; VNum 250; VNum 250; VNum 255]
              [VNum 250; VNum 250; VNum 250; VNum 255])
    as (_ & _ & (r1 & r2 & name & E1 & E2 & Hn & H1 & H2) & _).
  - right; reflexivity.
  - reflexivity.
  - reflexivity.
  - reflexivity.
  - reflexivity.
  - reflexivity.
  - exists r1, r2. vm_compute in Hn. injection Hn as <-.
    repeat split; assumption.
Defined.

(** What the color resolver of a directional or point light receives:
    the first three arguments, whatever follows them and however many of
    them belong to the color. *)
Lemma register_color_arguments color t arguments r r' :
  t = Directional ∨ t = Point →
  register color t arguments r = (Normal tt, r') →
  ∃ colors,
    color [index arguments 0; index arguments 1; index arguments 2]
    = Normal colors ∧
    uniforms r' !! (lightProgram, colorName t (lightCount t r))
    = Some (rgb colors).
Proof.
  intros Ht E.
  apply register_Normal in E as (colors & v & Hc & _ & _ & _ & Hu & _).
  exists colors. split.
  - by destruct Ht as [-> | ->].
  - rewrite Hu. apply written_color.
Qed.

(** C3. [directionalLight(200, 1, 2, 3)] and [pointLight(200, 1, 2, 3)],
    a gray value followed by three scalars, on a renderer at the start of
    a frame and with the resolver of the default color range: the vector
    written is the last three arguments, (1, 2, 3), but the color written
    is (200, 1, 2), the resolution of the first three arguments, where
    the color given, 200 alone, resolves to (200, 200, 200). *)
Theorem C3_gray_with_scalars_takes_color_from_vector :
  let arguments := [VNum 200; VNum 1; VNum 2; VNum 3] in
  colorRGB255 [VNum 200] = Normal [VNum 200; VNum 200; VNum 200; VNum 255] ∧
  (directionalLight colorRGB255 arguments freshRenderer).1 = Normal tt ∧
  uniforms (directionalLight colorRGB255 arguments freshRenderer).2
    !! (("lightVert", "lightTextureFrag"), "uDirectionalColor[0]")
  = Some (Uniform3f (VNum 200) (VNum 1) (VNum 2)) ∧
  uniforms (directionalLight colorRGB255 arguments freshRenderer).2
    !! (("lightVert", "lightTextureFrag"), "uLightingDirection[0]")
  = Some (Uniform3f (VNum 1) (VNum 2) (VNum 3)) ∧
  (pointLight colorRGB255 arguments freshRenderer).1 = Normal tt ∧
  uniforms (pointLight colorRGB255 arguments freshRenderer).2
    !! (("lightVert", "lightTextureFrag"), "uPointLightColor[0]")
  = Some (Uniform3f (VNum 200) (VNum 1) (VNum 2)) ∧
  uniforms (pointLight colorRGB255 arguments freshRenderer).2
    !! (("lightVert", "lightTextureFrag"), "uPointLightLocation[0]")
  = Some (Uniform3f (VNum 1) (VNum 2) (VNum 3)).
Proof. cbv zeta. repeat split; vm_compute; reflexivity. Qed.

(** C2, the claim as stated fails: [pointLight(250, 250, 250,
    "not-a-vector")] on a renderer at the start of a frame returns; it
    has written the vector uniform, which held nothing, with three
    [undefined], and has counted the light. *)
Lemma C2_string_vector_is_accepted :
  let out :=
    pointLight colorRGB255
      [VNum 250; VNum 250; VNum 250; VStr "not-a-vector"] freshRenderer in
  out.1 = Normal tt ∧
  uniforms freshRenderer
    !! (("lightVert", "lightTextureFrag"), "uPointLightLocation[0]") = None ∧
  uniforms out.2
    !! (("lightVert", "lightTextureFrag"), "uPointLightLocation[0]")
  = Some (Uniform3f VUndefined VUndefined VUndefined) ∧
  pointLightCount out.2 = 1%N.
Proof. cbv zeta. repeat split; vm_compute; reflexivity. Qed.

(** C2, amended. A directional or point light whose color resolves and
    whose last argument is no number: when that argument is [undefined]
    or [null] (a call without arguments reads [undefined]), the call
    throws a TypeError; the counters are as before and so are the
    uniforms, but for the indexed color uniform, written before the
    vector is read. For every other last argument the call returns, and
    the vector it writes is made of the properties [x], [y], [z] of that
    argument, [undefined] where the argument has none. *)
Theorem C2_vector_argument_shapes color t arguments r colors :
  t = Directional ∨ t = Point →
  color (colorArguments t arguments) = Normal colors →
  typeof (lastArgument arguments) ≠ "number" →
  let out := register color t arguments r in
  if nullish (lastArgument arguments) then
    ∃ msg, out.1 = Throw (TypeError msg) ∧
      counters out.2 = counters r ∧
      uniforms out.2
      = <[(("lightVert", "lightTextureFrag"), colorName t (lightCount t r))
          := Uniform3f (index colors 0) (index colors 1) (index colors 2)]>
          (uniforms r)
  else
    ∃ x y z name,
      getMember (lastArgument arguments) "x" = Normal x ∧
      getMember (lastArgument arguments) "y" = Normal y ∧
      getMember (lastArgument arguments) "z" = Normal z ∧
      out.1 = Normal tt ∧
      vectorName t (lightCount t r) = Some name ∧
      uniforms out.2 !! (("lightVert", "lightTextureFrag"), name)
      = Some (Uniform3f x y z).
Proof.
  intros Ht Hc Hnum out.
  destruct (register_run color t arguments r) as [_ H]. fold out in H.
  rewrite Hc, geometry_vector in H by done.
  destruct (nullish (lastArgument arguments)) eqn:Hnull.
  - destruct (trailingVector_nullish arguments) as [msg Hv].
    { destruct (lastArgument arguments); try done; auto. }
    rewrite Hv in H. destruct H as (? & ? & ? & _). by exists msg.
  - destruct (trailingVector_member arguments) as (x & y & z & ? & ? & ? & Hv);
      [done|by intros E; rewrite E in Hnull..|].
    rewrite Hv in H. destruct H as (? & _ & Hu & _).
    destruct (vectorName_Some t (lightCount t r) Ht) as [name Hn].
    exists x, y, z, name. repeat (split; [done|]).
    rewrite Hu. by eapply written_vector.
Qed.

Lemma C2_vector_argument_shapes_witness :
  ∃ msg,
    (register colorRGB255 Point [VNum 250; VNum 250; VNum 250; VNull]
       freshRenderer).1
    = Throw (TypeError msg).
Proof.
  destruct (C2_vector_argument_shapes colorRGB255 Point
              [VNum 250; VNum 250; VNum 250; VNull] freshRenderer
              [VNum 250; VNum 250; VNum 250; VNum 255])
    as (msg & H & _).
  - right; reflexivity.
  - reflexivity.
  - vm_compute. discriminate.
  - exists msg. exact H.
Defined.

(** ** Consecutive registrations *)

Lemma registerAll_cons color t arguments rest r :
  registerAll color t (arguments :: rest) r
  = match register color t arguments r with
    | (Normal _, r1) => registerAll color t rest r1
    | (Throw e, r1) => (Throw e, r1)
    end.
Proof. reflexivity. Qed.

Lemma registerAll_app color t cs1 cs2 r :
  registerAll color t (cs1 ++ cs2) r
  = match registerAll color t cs1 r with
    | (Normal _, r1) => registerAll color t cs2 r1
    | (Throw e, r1) => (Throw e, r1)
    end.
Proof.
  revert r. induction cs1 as [|a cs1 IH]; intros r; [done|].
  rewrite <- app_comm_cons, !registerAll_cons.
  destruct (register color t a r) as [[u|e] r1]; [apply IH|done].
Qed.

(** The slots below the counter are out of reach of a registration. *)
Lemma register_frame color t arguments r r' j :
  register color t arguments r = (Normal tt, r') → (j < lightCount t r)%N →
  uniforms r' !! (lightProgram, colorName t j)
  = uniforms r !! (lightProgram, colorName t j) ∧
  ∀ name, vectorName t j = Some name →
    uniforms r' !! (lightProgram, name) = uniforms r !! (lightProgram, name).
Proof.
  intros E Hj.
  apply register_Normal in E as (colors & v & _ & _ & _ & _ & -> & _).
  split; [|intros name Hn]; apply written_other.
  - apply colorName_countName.
  - apply colorName_material.
  - apply colorName_vectorName.
  - intros E%colorName_inj. lia.
  - intros ->. by apply vectorName_countName in Hn.
  - intros ->. by apply vectorName_material in Hn.
  - intros Hn'. pose proof (vectorName_inj _ _ _ _ Hn Hn'). lia.
  - intros ->. by apply colorName_vectorName in Hn.
Qed.

(** What a registration that returns puts at the index it started from. *)
Lemma register_occupies color t arguments r r' :
  register color t arguments r = (Normal tt, r') →
  occupies color t arguments (lightCount t r) r'.
Proof.
  intros E.
  apply register_Normal in E as (colors & v & Hc & Hg & _ & _ & Hu & _).
  exists colors, v. split; [done|]. split; [done|]. rewrite Hu.
  split; [apply written_color|].
  destruct t; cbn in Hg |- *.
  - by injection Hg as <-.
  - destruct (trailingVector arguments) as [[[x y] z]|]; [|done].
    injection Hg as <-. by eapply written_vector.
  - destruct (trailingVector arguments) as [[[x y] z]|]; [|done].
    injection Hg as <-. by eapply written_vector.
Qed.

Lemma occupies_frame color t arguments i r r' :
  uniforms r' !! (lightProgram, colorName t i)
  = uniforms r !! (lightProgram, colorName t i) →
  (∀ name, vectorName t i = Some name →
     uniforms r' !! (lightProgram, name) = uniforms r !! (lightProgram, name)) →
  occupies color t arguments i r → occupies color t arguments i r'.
Proof.
  intros H1 H2 (colors & v & Hc & Hg & Hu & Hv).
  exists colors, v. split; [done|]. split; [done|]. rewrite H1.
  split; [done|].
  destruct (vectorName t i) as [name|], v as [[[x y] z]|]; try done.
  by rewrite H2.
Qed.

Lemma register_lightCount color t arguments r r' :
  register color t arguments r = (Normal tt, r') →
  lightCount t r' = (lightCount t r + 1)%N.
Proof.
  intros E. apply register_Normal in E as (_ & _ & _ & _ & _ & Hn & _).
  rewrite (lightCount_advance t t r r' Hn). by rewrite decide_True.
Qed.

(** A sequence of registrations that all return, from any counter. *)
Lemma registerAll_Normal color t cs r r' :
  registerAll color t cs r = (Normal tt, r') →
  lightCount t r' = (lightCount t r + N.of_nat (length cs))%N ∧
  (∀ j, (j < lightCount t r)%N →
     uniforms r' !! (lightProgram, colorName t j)
     = uniforms r !! (lightProgram, colorName t j) ∧
     ∀ name, vectorName t j = Some name →
       uniforms r' !! (lightProgram, name)
       = uniforms r !! (lightProgram, name)) ∧
  (∀ i arguments, cs !! i = Some arguments →
     occupies color t arguments (lightCount t r + N.of_nat i) r') ∧
  (cs ≠ [] →
   uniforms r' !! (lightProgram, countName t)
   = Some (Uniform1i (lightCount t r + N.of_nat (length cs)))).
Proof.
  revert r. induction cs as [|a cs IH]; intros r E.
  - injection E as <-. cbn [length]. rewrite N.add_0_r.
    split; [done|]. split; [done|]. split; [|done].
    intros i arguments Hi. by rewrite lookup_nil in Hi.
  - rewrite registerAll_cons in E.
    destruct (register color t a r) as [[[]|e] r1] eqn:E1; [|done].
    pose proof (register_lightCount _ _ _ _ _ E1) as Hn1.
    destruct (IH r1 E) as (Hn & Hframe & Hocc & Hcount).
    rewrite Hn1 in Hn, Hframe, Hocc, Hcount.
    split; [cbn [length]; lia|]. split; [|split].
    + intros j Hj. destruct (Hframe j) as [F1 F2]; [lia|].
      destruct (register_frame _ _ _ _ _ j E1 Hj) as [G1 G2].
      split; [by rewrite F1|]. intros name Hname.
      by rewrite F2, G2.
    + intros [|i] arguments Hi.
      * injection Hi as <-. rewrite N.add_0_r.
        destruct (Hframe (lightCount t r)) as [F1 F2]; [lia|].
        eapply occupies_frame; [done..|]. by apply register_occupies.
      * replace (lightCount t r + N.of_nat (S i))%N
          with (lightCount t r + 1 + N.of_nat i)%N by lia.
        by apply Hocc.
    + intros _. destruct cs as [|b cs].
      * injection E as <-. cbn [length].
        apply register_Normal in E1 as (? & ? & _ & _ & _ & _ & -> & _).
        apply written_count.
      * replace (lightCount t r + N.of_nat (length (a :: b :: cs)))%N
          with (lightCount t r + 1 + N.of_nat (length (b :: cs)))%N
          by (cbn [length]; lia).
        by apply Hcount.
Qed.

(** A sequence of registrations returns on arguments that are all
    accepted. *)
Lemma registerAll_returns color t cs r :
  forallb (accepts color t) cs = true →
  ∃ r', registerAll color t cs r = (Normal tt, r').
Proof.
  revert r. induction cs as [|a cs IH]; intros r H.
  - by exists r.
  - cbn [forallb] in H. apply andb_true_iff in H as [Ha Hcs].
    destruct (register_returns color t a r Ha) as [r1 E1].
    destruct (IH r1 Hcs) as [r' E]. exists r'.
    by rewrite registerAll_cons, E1.
Qed.

(** The indexing of a sequence of registrations that returned. *)
Lemma registerAll_indexed color t cs r r' :
  lightCount t r = 0%N →
  registerAll color t cs r = (Normal tt, r') →
  lightCount t r' = N.of_nat (length cs) ∧
  (cs ≠ [] →
   uniforms r' !! (lightProgram, countName t)
   = Some (Uniform1i (N.of_nat (length cs)))) ∧
  ∀ i arguments, cs !! i = Some arguments →
    occupies color t arguments (N.of_nat i) r' ∧
    ∃ ri ri' rest,
      registerAll color t (take i cs) r = (Normal tt, ri) ∧
      register color t arguments ri = (Normal tt, ri') ∧
      registerAll color t (drop (S i) cs) ri' = (Normal tt, r') ∧
      lightCount t ri = N.of_nat i ∧
      calls ri'
      = calls ri ++ GetShader "lightVert" "lightTextureFrag"
          :: UseProgram lightProgram
          :: GetUniformLocation lightProgram (colorName t (N.of_nat i))
          :: rest ∧
      (∀ name, vectorName t (N.of_nat i) = Some name →
         GetUniformLocation lightProgram name ∈ rest) ∧
      lightCount t ri' = (N.of_nat i + 1)%N ∧
      uniforms ri' !! (lightProgram, countName t)
      = Some (Uniform1i (N.of_nat i + 1)).
Proof.
  intros H0 E.
  destruct (registerAll_Normal _ _ _ _ _ E) as (Hn & _ & Hocc & Hcount).
  rewrite H0, N.add_0_l in Hn, Hcount.
  split; [done|]. split; [done|]. intros i arguments Hi. split.
  { specialize (Hocc i arguments Hi). by rewrite H0, N.add_0_l in Hocc. }
  pose proof (lookup_lt_Some _ _ _ Hi) as Hlt.
  rewrite <- (take_drop_middle cs i arguments Hi), registerAll_app in E.
  destruct (registerAll color t (take i cs) r) as [[[]|e] ri] eqn:Ei; [|done].
  rewrite registerAll_cons in E.
  destruct (register color t arguments ri) as [[[]|e] ri'] eqn:Es; [|done].
  destruct (registerAll_Normal _ _ _ _ _ Ei) as (Hi0 & _).
  rewrite H0, N.add_0_l, length_take, Nat.min_l in Hi0 by lia.
  pose proof (register_lightCount _ _ _ _ _ Es) as Hi1.
  pose proof Es as Es'.
  apply register_Normal in Es' as (colors & v & _ & Hg & _ & _ & Hu & Hc).
  rewrite Hi0 in Hi1, Hu, Hc.
  exists ri, ri'.
  exists (callsColor t (N.of_nat i) colors ++ callsVector t (N.of_nat i) v
            ++ callsEnd t (N.of_nat i)).
  repeat (split; [done|]). split; [|split; [done|]].
  - intros name Hname. rewrite !elem_of_app. right; left.
    unfold callsVector. rewrite Hname.
    destruct t; [done|..]; cbn in Hg;
      destruct (trailingVector arguments) as [[[x y] z]|]; try done;
      injection Hg as <-; apply elem_of_cons; by left.
  - rewrite Hu. apply written_count.
Qed.

(** C1. Consecutive registrations of one light type from a counter at 0,
    on arguments the color resolver answers on and, for a directional or
    point light, with a vector that can be read. All the calls return.
    Take the call of position [i] (from 0) in the sequence: the counter
    is [i] when it starts; it asks for the color slot, and for the vector
    slot if the type has one, by the name of index [i]; when it ends the
    counter is [i + 1] and the count uniform of the type holds [i + 1].
    After the whole sequence the counter is the number of calls, so is
    the count uniform, and the light of every call still occupies the
    index of its position. *)
Theorem C1_lights_indexed_in_call_order color t cs r :
  lightCount t r = 0%N →
  forallb (accepts color t) cs = true →
  ∃ r',
    registerAll color t cs r = (Normal tt, r') ∧
    lightCount t r' = N.of_nat (length cs) ∧
    (cs ≠ [] →
     uniforms r' !! (lightProgram, countName t)
     = Some (Uniform1i (N.of_nat (length cs)))) ∧
    ∀ i arguments, cs !! i = Some arguments →
      occupies color t arguments (N.of_nat i) r' ∧
      ∃ ri ri' rest,
        registerAll color t (take i cs) r = (Normal tt, ri) ∧
        register color t arguments ri = (Normal tt, ri') ∧
        registerAll color t (drop (S i) cs) ri' = (Normal tt, r') ∧
        lightCount t ri = N.of_nat i ∧
        calls ri'
        = calls ri ++ GetShader "lightVert" "lightTextureFrag"
            :: UseProgram lightProgram
            :: GetUniformLocation lightProgram (colorName t (N.of_nat i))
            :: rest ∧
        (∀ name, vectorName t (N.of_nat i) = Some name →
           GetUniformLocation lightProgram name ∈ rest) ∧
        lightCount t ri' = (N.of_nat i + 1)%N ∧
        uniforms ri' !! (lightProgram, countName t)
        = Some (Uniform1i (N.of_nat i + 1)).
Proof.
  intros H0 Ha. destruct (registerAll_returns color t cs r Ha) as [r' E].
  exists r'. split; [done|]. by apply registerAll_indexed.
Qed.

Lemma C1_lights_indexed_in_call_order_witness :
  ∃ r',
    registerAll colorRGB255 Point
      [[VNum 250; VNum 250; VNum 250; VNum 1; VNum 2; VNum 3];
       [VNum 10; VNum 20; VNum 30;
        VObj [("x", VNum 4); ("y", VNum 5); ("z", VNum 6)]]]
      freshRenderer
    = (Normal tt, r') ∧
    lightCount Point r' = 2%N ∧
    uniforms r' !! (lightProgram, countName Point) = Some (Uniform1i 2).
Proof.
  destruct (C1_lights_indexed_in_call_order colorRGB255 Point
              [[VNum 250; VNum 250; VNum 250; VNum 1; VNum 2; VNum 3];
               [VNum 10; VNum 20; VNum 30;
                VObj [("x", VNum 4); ("y", VNum 5); ("z", VNum 6)]]]
              freshRenderer)
    as (r' & E & Hn & Hc & _).
  - reflexivity.
  - reflexivity.
  - exists r'. split; [exact E|]. split; [exact Hn|].
    apply Hc. discriminate.
Defined.

(** ** Tinting *)

Import Image.

Section Tinting.

Variable toUint8Clamped : Q → Z.
Variables (t : tintColor) (pixels : list Z).

Lemma tintLoop_app steps1 steps2 newPixels :
  tintLoop toUint8Clamped (Some t) pixels (steps1 ++ steps2) newPixels
  = match tintLoop toUint8Clamped (Some t) pixels steps1 newPixels with
    | Normal newPixels' =>
        tintLoop toUint8Clamped (Some t) pixels steps2 newPixels'
    | Throw e => Throw e
    end.
Proof.
  revert newPixels. induction steps1 as [|i steps1 IH]; intros newPixels.
  - done.
  - cbn. destruct t as [[[t0 t1] t2] t3]. cbn. apply IH.
Qed.

Lemma channel_offset k c :
  c < 4 → channel t (4 * k + c)
          = let '(t0, t1, t2, t3) := t in
            match c with 0 => t0 | 1 => t1 | 2 => t2 | _ => t3 end.
Proof.
  intros Hc. unfold channel. destruct t as [[[t0 t1] t2] t3].
  replace ((4 * k + c) mod 4) with c; [done|].
  rewrite (Nat.add_comm _ c), (Nat.mul_comm 4 k), Nat.Div0.mod_add.
  symmetry. by apply Nat.mod_small.
Qed.

(** After the first [m] rounds of the loop the first [4 * m] bytes of
    the new array are the scaled bytes of [pixels]; the length of the
    array does not change. *)
Lemma tintLoop_rounds newPixels m :
  4 * m ≤ length newPixels →
  ∃ newPixels',
    tintLoop toUint8Clamped (Some t) pixels ((λ k, 4 * k) <$> seq 0 m)
      newPixels
    = Normal newPixels' ∧
    length newPixels' = length newPixels ∧
    ∀ j, j < 4 * m →
      newPixels' !! j = Some (scaled toUint8Clamped pixels j (channel t j)).
Proof.
  induction m as [|m IH]; intros Hm.
  - exists newPixels. split; [done|]. split; [done|]. intros j Hj. lia.
  - destruct IH as (acc & Hrun & Hlen & Hacc); [lia|].
    rewrite seq_S, fmap_app, tintLoop_app, Hrun. cbn [fmap list_fmap tintLoop].
    rewrite Nat.add_0_l.
    pose proof (channel_offset m 0) as C0. rewrite Nat.add_0_r in C0.
    pose proof (channel_offset m 1) as C1.
    pose proof (channel_offset m 2) as C2.
    pose proof (channel_offset m 3) as C3.
    unfold tintPixel. destruct t as [[[t0 t1] t2] t3].
    eexists. split; [reflexivity|]. split; [by rewrite !length_insert|].
    intros j Hj.
    destruct (decide (j = 4 * m + 3)) as [->|];
      [rewrite list_lookup_insert_eq, C3 by (rewrite ?length_insert; lia);
       done|rewrite list_lookup_insert_ne by done].
    destruct (decide (j = 4 * m + 2)) as [->|];
      [rewrite list_lookup_insert_eq, C2 by (rewrite ?length_insert; lia);
       done|rewrite list_lookup_insert_ne by done].
    destruct (decide (j = 4 * m + 1)) as [->|];
      [rewrite list_lookup_insert_eq, C1 by (rewrite ?length_insert; lia);
       done|rewrite list_lookup_insert_ne by done].
    destruct (decide (j = 4 * m)) as [->|];
      [rewrite list_lookup_insert_eq, C0 by lia;
       done|rewrite list_lookup_insert_ne by done].
    apply Hacc. lia.
Qed.

(** The whole loop on arrays of [4 * n] bytes. *)
Lemma tintLoop_offsets newPixels n :
  length pixels = 4 * n → length newPixels = 4 * n →
  ∃ newPixels',
    tintLoop toUint8Clamped (Some t) pixels (offsets (length pixels))
      newPixels
    = Normal newPixels' ∧
    length newPixels' = 4 * n ∧
    ∀ j p, pixels !! j = Some p →
      newPixels' !! j
      = Some (toUint8Clamped (inject_Z p * channel t j / 255)%Q).
Proof.
  intros Hp Hn. unfold offsets. rewrite Hp.
  replace ((4 * n + 3) / 4) with n
    by (apply Nat.div_unique with 3; lia).
  destruct (tintLoop_rounds newPixels n) as (acc & Hrun & Hlen & Hacc); [lia|].
  exists acc. split; [done|]. split; [lia|].
  intros j p Hj. rewrite Hacc.
  - unfold scaled. by rewrite Hj.
  - apply lookup_lt_Some in Hj. lia.
Qed.

End Tinting.

Section Display.

Variable _toPixels : Canvas → completion (list Z).
Variable modeAdjust : value → value → value → value → value → rect.
Variable toUint8Clamped : Q → Z.
Variable drawn : Canvas → Canvas → rect → completion Canvas.

Lemma tintLoop_null pixels steps newPixels :
  steps ≠ [] →
  ∃ e, tintLoop toUint8Clamped None pixels steps newPixels = Throw e.
Proof. destruct steps; [done|]. cbn. eauto. Qed.

Lemma fresh_canvas (cs : gmap nat Canvas) id c :
  cs !! id = Some c → fresh (dom cs) ≠ id.
Proof.
  intros Hc E. apply (is_fresh (dom cs)). rewrite E. apply elem_of_dom. eauto.
Qed.

Lemma fresh_None (cs : gmap nat Canvas) : cs !! fresh (dom cs) = None.
Proof. apply not_elem_of_dom, is_fresh. Qed.

Lemma tinted_run img s :
  let out := _getTintedImageCanvas _toPixels toUint8Clamped img s in
  let new := fresh (dom (canvases s)) in
  _imageMode out.2 = _imageMode s ∧ _tint out.2 = _tint s ∧
  _curElement out.2 = _curElement s ∧
  (∀ id, id ≠ new → canvases out.2 !! id = canvases s !! id) ∧
  ∀ c pixels t newPixels,
    canvases s !! canvas img = Some c → _toPixels c = Normal pixels →
    _tint s = Some t → 0 < width c → 0 < height c →
    tintLoop toUint8Clamped (Some t) pixels (offsets (length pixels))
      (blank (width c) (height c)) = Normal newPixels →
    out.1 = Normal new ∧
    canvases out.2 !! new = Some (mkCanvas (width c) (height c) newPixels).
Proof.
  intros out new. destruct s as [mode tint cur cs].
  cbn [canvases _imageMode _tint _curElement] in *.
  destruct (cs !! canvas img) as [c|] eqn:Hc;
    [destruct (_toPixels c) as [pixels|e] eqn:Hp;
     [destruct ((width c =? 0) || (height c =? 0)) eqn:Hz;
      [|destruct (tintLoop toUint8Clamped tint pixels
                    (offsets (length pixels))
                    (blank (width c) (height c))) as [newPixels|e] eqn:Hl]
     |]|].
  all: try pose proof (fresh_canvas _ _ _ Hc) as Hnew; try fold new in Hnew.
  all: eassert (out = _) as ->
      by (subst out; unfold _getTintedImageCanvas;
          cbv [bind gets modify ret lift getCanvas createCanvasElement
               setWidth setHeight putImageData createImageData setCanvases
               canvases _imageMode _tint _curElement];
          fold new;
          repeat first
            [ rewrite lookup_insert_eq | rewrite lookup_insert_ne by done
            | rewrite Hc | rewrite Hp | rewrite Hz | rewrite Hl
            | progress cbn [width height data] ];
          reflexivity).
  all: cbn [fst snd canvases _imageMode _tint _curElement].
  all: (split; [done|split; [done|split; [done|split]]]).
  all: try (intros id Hid; by rewrite ?lookup_insert_ne by done).
  all: intros c0 pixels0 t newPixels0 E0 Hp0 -> Hw Hh Hl0.
  all: try discriminate E0; injection E0 as <-.
  all: rewrite Hp in Hp0; try discriminate Hp0; injection Hp0 as <-.
  - apply orb_true_iff in Hz as [Hz%Nat.eqb_eq|Hz%Nat.eqb_eq]; lia.
  - rewrite Hl in Hl0. injection Hl0 as <-.
    split; [done|]. apply lookup_insert_eq.
  - rewrite Hl in Hl0. discriminate Hl0.
Qed.

(** [drawImage] changes the canvas it draws on and no other. *)
Lemma drawImage_frame source vals s id :
  id ≠ _curElement s →
  canvases (drawImage drawn source vals s).2 !! id = canvases s !! id.
Proof.
  intros Hid. destruct s as [mode tint cur cs]. cbn in Hid.
  unfold drawImage, getCanvas.
  cbv [bind gets modify ret lift setCanvases canvases _curElement].
  destruct (cs !! cur) as [ct|]; [|done].
  destruct (cs !! source) as [c|]; [|done].
  destruct (drawn ct c vals) as [ct'|]; [|done].
  cbn. by rewrite lookup_insert_ne.
Qed.

(** With a tint set, [image] changes no canvas but the one it draws on
    and the new one of the tinted copy. *)
Lemma image_frame img x y w h s id :
  _tint s ≠ None → id ≠ _curElement s → id ≠ fresh (dom (canvases s)) →
  canvases (image _toPixels modeAdjust toUint8Clamped drawn img x y w h s).2
    !! id
  = canvases s !! id.
Proof.
  intros Ht Hcur Hnew. cbv [image bind gets].
  destruct (_tint s) as [t|] eqn:Et; [|done].
  destruct (tinted_run img s) as (_ & _ & Hc & Hframe & _).
  destruct (_getTintedImageCanvas _ _ img s) as [[tinted|e] s'];
    cbn [fst snd] in *.
  - rewrite drawImage_frame by congruence. by apply Hframe.
  - by apply Hframe.
Qed.

End Display.

(** ** Examples *)

Example imageMode_center :
  (imageMode "corner" "corners" "center" (VStr "center")
     (mkP5 (VStr "corner") None 0 ∅)).2
  = mkP5 (VStr "center") None 0 ∅.
Proof. reflexivity. Qed.

Example imageMode_other :
  (imageMode "corner" "corners" "center" (VStr "radius")
     (mkP5 (VStr "corner") None 0 ∅)).2
  = mkP5 (VStr "corner") None 0 ∅.
Proof. reflexivity. Qed.

Example tinted_pixel :
  let s := mkP5 (VStr "corner") (Some (255, 128, 0, 255)%Q) 0
             (<[1 := mkCanvas 1 1 [100; 200; 50; 255]%Z]>
                (<[0 := mkCanvas 2 1 (blank 2 1)]> ∅)) in
  let out :=
    _getTintedImageCanvas bitmapPixels clampedByte
      (mkImage (VNum 1) (VNum 1) 1) s in
  out.1 = Normal 2 ∧
  canvases out.2 !! 2 = Some (mkCanvas 1 1 [100; 100; 0; 255]%Z) ∧
  canvases out.2 !! 1 = Some (mkCanvas 1 1 [100; 200; 50; 255]%Z).
Proof. cbv zeta. repeat split; vm_compute; reflexivity. Qed.

(** ** The claims on the image functions *)

(** C9. [imageMode(m)] never throws and touches nothing but the stored
    mode: when [m] is one of the three constants the stored mode becomes
    [m]; for any other argument the sketch is left exactly as it was. *)
Theorem C9_imageMode_accepts_the_three_constants CORNER CORNERS CENTER m s :
  ∃ s',
    imageMode CORNER CORNERS CENTER m s = (Normal tt, s') ∧
    _tint s' = _tint s ∧ _curElement s' = _curElement s ∧
    canvases s' = canvases s ∧
    ((m = VStr CORNER ∨ m = VStr CORNERS ∨ m = VStr CENTER) ∧
     _imageMode s' = m
     ∨ (m ≠ VStr CORNER ∧ m ≠ VStr CORNERS ∧ m ≠ VStr CENTER) ∧ s' = s).
Proof.
  assert (∀ c, strictEqString m c = true ↔ m = VStr c) as Heq.
  { intros c. destruct m; cbn; try (split; [done|by intros [=]]).
    rewrite String.eqb_eq. split; [by intros ->|by intros [= ->]]. }
  unfold imageMode.
  destruct (strictEqString m CORNER) eqn:E1;
    [|destruct (strictEqString m CORNERS) eqn:E2;
      [|destruct (strictEqString m CENTER) eqn:E3]]; cbn [orb].
  4: { exists s. repeat (split; [done|]). right.
       split; [|done]. repeat split; intros E%Heq; congruence. }
  all: exists (setImageMode m s); repeat (split; [done|]); left;
    (split; [|done]).
  - left. by apply Heq.
  - right; left. by apply Heq.
  - right; right. by apply Heq.
Qed.

(** C10. [_getTintedImageCanvas] leaves every canvas there is, the one
    of its input among them, as it was, whether it returns or throws.
    When the image has a canvas of a non-empty area, with as many bytes
    as its area asks for, and a tint is set, it returns a canvas that did
    not exist before, of the same width and height, whose bytes are the
    bytes of the source times the tint channel of their position over
    255, as a clamped byte array keeps them. And [image], with a tint
    set, leaves the canvas of the image as it was when it is not the
    canvas drawn on. *)
Theorem C10_tinting_leaves_the_source
    _toPixels modeAdjust toUint8Clamped drawn img s :
  let out := _getTintedImageCanvas _toPixels toUint8Clamped img s in
  (∀ id c, canvases s !! id = Some c → canvases out.2 !! id = Some c) ∧
  (∀ c pixels t,
     canvases s !! canvas img = Some c → _toPixels c = Normal pixels →
     _tint s = Some t → 0 < width c → 0 < height c →
     length pixels = 4 * width c * height c →
     ∃ new tinted,
       out.1 = Normal new ∧ canvases s !! new = None ∧
       canvases out.2 !! new = Some tinted ∧
       width tinted = width c ∧ height tinted = height c ∧
       length (data tinted) = length pixels ∧
       ∀ j p, pixels !! j = Some p →
         data tinted !! j
         = Some (toUint8Clamped (inject_Z p * channel t j / 255)%Q)) ∧
  (∀ c x y w h,
     canvases s !! canvas img = Some c →
     _tint s ≠ None → canvas img ≠ _curElement s →
     canvases
       (image _toPixels modeAdjust toUint8Clamped drawn img x y w h s).2
       !! canvas img
     = Some c).
Proof.
  intros out.
  destruct (tinted_run _toPixels toUint8Clamped img s)
    as (_ & _ & _ & Hframe & Hrun). fold out in Hframe, Hrun.
  split; [|split].
  - intros id c Hc. rewrite Hframe; [done|].
    intros ->. by rewrite fresh_None in Hc.
  - intros c pixels t Hc Hp Ht Hw Hh Hlen.
    destruct (tintLoop_offsets toUint8Clamped t pixels
                (blank (width c) (height c)) (width c * height c))
      as (newPixels & Hl & Hlen' & Hpix); [lia|..].
    { unfold blank. rewrite length_replicate. lia. }
    destruct (Hrun c pixels t newPixels) as [H1 H2]; try done.
    exists (fresh (dom (canvases s))),
      (mkCanvas (width c) (height c) newPixels).
    split; [done|]. split; [apply fresh_None|]. split; [done|].
    cbn [width height data]. repeat (split; [done|]).
    split; [lia|done].
  - intros c x y w h Hc Ht Hcur.
    rewrite (image_frame _toPixels modeAdjust toUint8Clamped drawn);
      [done..|]. intros E. by rewrite E, fresh_None in Hc.
Qed.

Lemma C10_tinting_leaves_the_source_witness :
  let s := mkP5 (VStr "corner") (Some (255, 128, 0, 255)%Q) 0
             (<[1 := mkCanvas 1 1 [100; 200; 50; 255]%Z]>
                (<[0 := mkCanvas 2 1 (blank 2 1)]> ∅)) in
  let img := mkImage (VNum 1) (VNum 1) 1 in
  ∃ new tinted,
    (_getTintedImageCanvas bitmapPixels clampedByte img s).1 = Normal new ∧
    canvases (_getTintedImageCanvas bitmapPixels clampedByte img s).2 !! new
    = Some tinted ∧
    data tinted !! 1 = Some (clampedByte (inject_Z 200 * 128 / 255)%Q).
Proof.
  intros s img.
  destruct (proj1 (proj2 (C10_tinting_leaves_the_source bitmapPixels
                            cornerRect clampedByte copied img s))
              (mkCanvas 1 1 [100; 200; 50; 255]%Z) [100; 200; 50; 255]%Z
              (255, 128, 0, 255)%Q)
    as (new & tinted & H1 & _ & H2 & _ & _ & _ & H3).
  - vm_compute. reflexivity.
  - reflexivity.
  - reflexivity.
  - simpl. lia.
  - simpl. lia.
  - reflexivity.
  - exists new, tinted. split; [exact H1|]. split; [exact H2|].
    apply (H3 1 200%Z). reflexivity.
Defined.

(** ** More on the lighting functions *)

(** Names of different light types are different. *)
Lemma colorName_ne t t' i j : t ≠ t' → colorName t i ≠ colorName t' j.
Proof. destruct t, t'; intros Ht; try done; distinct_names. Qed.

Lemma vectorName_ne t t' i j name :
  t ≠ t' → vectorName t i = Some name → vectorName t' j ≠ Some name.
Proof.
  destruct t, t'; intros Ht; try done; cbn; intros [= <-]; try done;
    intros [= E]; revert E; distinct_names.
Qed.

Lemma countName_ne t t' : t ≠ t' → countName t ≠ countName t'.
Proof. destruct t, t'; intros Ht; try done; distinct_names. Qed.

Lemma written_other_program (t : lightType) (n : N) (colors : list value)
    (v : option (value * value * value))
    (m : gmap (program * string) uniformValue) (p : program) (name : string) :
  p ≠ lightProgram → written t n colors v m !! (p, name) = m !! (p, name).
Proof.
  intros Hp. unfold written, withVector.
  rewrite !lookup_insert_ne by congruence.
  destruct (vectorName t n), v as [[[x y] z]|];
    rewrite ?lookup_insert_ne by congruence; done.
Qed.

(** In every outcome a registration leaves alone the uniforms of other
    programs and, of the lighting program, all but its four. *)
Lemma register_other color t arguments r p name :
  p ≠ lightProgram
  ∨ (name ≠ countName t ∧ name ≠ "uMaterialColor"
     ∧ vectorName t (lightCount t r) ≠ Some name
     ∧ name ≠ colorName t (lightCount t r)) →
  uniforms (register color t arguments r).2 !! (p, name)
  = uniforms r !! (p, name).
Proof.
  intros H. destruct (register_run color t arguments r) as [_ Hrun].
  destruct (color _) as [colors|e]; [destruct (geometry _ _) as [v|e]|];
    destruct Hrun as (_ & _ & -> & _); [| |done].
  - destruct H as [Hp|(H1 & H2 & H3 & H4)];
      [by apply written_other_program|by apply written_other].
  - apply lookup_insert_ne. destruct H as [Hp|(_ & _ & _ & H4)]; congruence.
Qed.

Lemma register_counters color t arguments r t' :
  t' ≠ t →
  lightCount t' (register color t arguments r).2 = lightCount t' r.
Proof.
  intros Ht. pose proof (C := register_run color t arguments r).
  destruct C as [_ Hrun].
  destruct (color _) as [colors|e]; [destruct (geometry _ _) as [v|e]|];
    destruct Hrun as (_ & Hc & _).
  - rewrite (lightCount_advance t t' _ _ Hc). by rewrite decide_False.
  - by apply lightCount_counters.
  - by apply lightCount_counters.
Qed.

(** X1. When the color resolver refuses the arguments, the call throws
    what the resolver threw: no uniform has been written and no counter
    has moved, but the lighting program has been made the program in use
    and the color slot of the next index has been looked up. *)
Theorem color_error_registers_no_light color t arguments r e :
  color (colorArguments t arguments) = Throw e →
  (register color t arguments r).1 = Throw e ∧
  uniforms (register color t arguments r).2 = uniforms r ∧
  (∀ t', lightCount t' (register color t arguments r).2 = lightCount t' r) ∧
  currentProgram (register color t arguments r).2
  = Some ("lightVert", "lightTextureFrag") ∧
  calls (register color t arguments r).2
  = calls r ++ [GetShader "lightVert" "lightTextureFrag";
                UseProgram ("lightVert", "lightTextureFrag");
                GetUniformLocation ("lightVert", "lightTextureFrag")
                  (colorName t (lightCount t r))].
Proof.
  intros E. destruct (register_run color t arguments r) as [Hp H].
  rewrite E in H. destruct H as (H1 & H2 & H3 & H4 & _).
  repeat (split; [done|]). split; [|done].
  intros t'. by apply lightCount_counters.
Qed.

Lemma color_error_registers_no_light_witness :
  uniforms (register colorRGB255 Ambient [VStr "red"] freshRenderer).2
  = uniforms freshRenderer.
Proof.
  refine (proj1 (proj2 (color_error_registers_no_light colorRGB255 Ambient
                          [VStr "red"] freshRenderer _ _))).
  reflexivity.
Defined.

(** X2. A directional or point light ignores whatever stands between its
    third argument and its last three: the opacity of the color, in
    particular, changes nothing. *)
Theorem arguments_between_color_and_vector_ignored
    color t v1 v2 v3 mid mid' x y z r :
  t = Directional ∨ t = Point →
  register color t (v1 :: v2 :: v3 :: mid ++ [x; y; VNum z]) r
  = register color t (v1 :: v2 :: v3 :: mid' ++ [x; y; VNum z]) r.
Proof.
  intros Ht. apply register_congr.
  - replace (colorArguments t (v1 :: v2 :: v3 :: mid ++ [x; y; VNum z]))
      with (colorArguments t (v1 :: v2 :: v3 :: mid' ++ [x; y; VNum z]))
      by (by destruct Ht as [-> | ->]).
    unfold sameRGB. by destruct (color _).
  - rewrite !geometry_vector by done.
    pose proof (trailingVector_numeric (v1 :: v2 :: v3 :: mid) x y z) as E.
    pose proof (trailingVector_numeric (v1 :: v2 :: v3 :: mid') x y z) as E'.
    cbn [app] in E, E'. by rewrite E, E'.
Qed.

Lemma arguments_between_color_and_vector_ignored_witness :
  register colorRGB255 Point
    [VNum 250; VNum 250; VNum 250; VNum 128; VNum 1; VNum 2; VNum 3]
    freshRenderer
  = register colorRGB255 Point
      [VNum 250; VNum 250; VNum 250; VNum 1; VNum 2; VNum 3] freshRenderer.
Proof.
  refine (arguments_between_color_and_vector_ignored colorRGB255 Point
            (VNum 250) (VNum 250) (VNum 250) [VNum 128] []
            (VNum 1) (VNum 2) 3 freshRenderer _).
  right; reflexivity.
Defined.

(** X3. Whether it returns or throws, a registration changes no uniform
    of another program and, of the lighting program, none but the color
    and vector slots of its index, the material color and the count of
    its type. *)
Theorem registration_writes_at_most_four_uniforms
    color t arguments r p name :
  p ≠ ("lightVert", "lightTextureFrag")
  ∨ (name ≠ colorName t (lightCount t r)
     ∧ vectorName t (lightCount t r) ≠ Some name
     ∧ name ≠ "uMaterialColor" ∧ name ≠ countName t) →
  uniforms (register color t arguments r).2 !! (p, name)
  = uniforms r !! (p, name).
Proof.
  intros H. apply register_other.
  destruct H as [?|(?&?&?&?)]; [by left|by right].
Qed.

Lemma registration_writes_at_most_four_uniforms_witness :
  uniforms
    (register colorRGB255 Ambient [VNum 150]
       (setUniforms (<[(lightProgram, "uShininess") := Uniform1i 7]> ∅)
          freshRenderer)).2
    !! (lightProgram, "uShininess")
  = Some (Uniform1i 7).
Proof.
  refine (registration_writes_at_most_four_uniforms colorRGB255 Ambient
            [VNum 150] _ lightProgram "uShininess" _).
  right. repeat split; vm_compute; discriminate.
Defined.

(** X4. Light types do not disturb one another: in every outcome a
    registration of one type leaves the counter, the count uniform and
    all the color and vector slots of the other two types as they
    were. *)
Theorem other_light_types_untouched color t arguments r t' :
  t' ≠ t →
  lightCount t' (register color t arguments r).2 = lightCount t' r ∧
  uniforms (register color t arguments r).2 !! (lightProgram, countName t')
  = uniforms r !! (lightProgram, countName t') ∧
  ∀ j,
    uniforms (register color t arguments r).2 !! (lightProgram, colorName t' j)
    = uniforms r !! (lightProgram, colorName t' j) ∧
    ∀ name, vectorName t' j = Some name →
      uniforms (register color t arguments r).2 !! (lightProgram, name)
      = uniforms r !! (lightProgram, name).
Proof.
  intros Ht. split; [by apply register_counters|]. split; [|intros j; split].
  - apply register_other. right. repeat split.
    + by apply countName_ne.
    + apply countName_material.
    + apply vectorName_countName.
    + apply not_eq_sym, colorName_countName.
  - apply register_other. right. repeat split.
    + apply colorName_countName.
    + apply colorName_material.
    + apply colorName_vectorName.
    + by apply colorName_ne.
  - intros name Hn. apply register_other. right. repeat split.
    + intros ->. by apply vectorName_countName in Hn.
    + intros ->. by apply vectorName_material in Hn.
    + by apply (vectorName_ne t' t j).
    + intros ->. by apply colorName_vectorName in Hn.
Qed.

Lemma other_light_types_untouched_witness :
  lightCount Ambient
    (register colorRGB255 Point
       [VNum 250; VNum 250; VNum 250; VNum 1; VNum 2; VNum 3]
       freshRenderer).2
  = lightCount Ambient freshRenderer.
Proof.
  refine (proj1 (other_light_types_untouched colorRGB255 Point _
                   freshRenderer Ambient _)).
  discriminate.
Defined.

Lemma other_counts color t arguments r t' :
  t' ≠ t →
  lightCount t' (register color t arguments r).2 = lightCount t' r ∧
  uniforms (register color t arguments r).2 !! (lightProgram, countName t')
  = uniforms r !! (lightProgram, countName t').
Proof.
  intros Ht. split; [by apply register_counters|].
  apply register_other. right. repeat split.
  - by apply countName_ne.
  - apply countName_material.
  - apply vectorName_countName.
  - apply not_eq_sym, colorName_countName.
Qed.

(** X5. The count uniforms stay in step with the counters: a count
    uniform that holds the counter of its type still does after any
    registration of any type, whatever the outcome, and a registration
    that returns leaves the count uniform of its own type equal to the
    counter even if it was not before. *)
Theorem count_uniforms_follow_counters color t arguments r :
  (∀ t', inSync t' r → inSync t' (register color t arguments r).2) ∧
  ((register color t arguments r).1 = Normal tt →
   inSync t (register color t arguments r).2).
Proof.
  assert ((register color t arguments r).1 = Normal tt →
          inSync t (register color t arguments r).2) as Hown.
  { destruct (register color t arguments r) as [[[]|e] r'] eqn:E; [|done].
    intros _. cbn [snd]. unfold inSync.
    rewrite (register_lightCount _ _ _ _ _ E).
    apply register_Normal in E as (colors & v & _ & _ & _ & _ & -> & _).
    apply written_count. }
  split; [|done]. intros t' Hs.
  destruct (decide (t' = t)) as [->|Ht].
  - destruct (register color t arguments r) as [[[]|e] r'] eqn:E;
      [by apply Hown|].
    cbn [snd]. unfold inSync in *.
    pose proof (register_other color t arguments r lightProgram (countName t))
      as Hu.
    destruct (register_run color t arguments r) as [_ Hrun].
    rewrite E in Hu, Hrun. cbn [fst snd] in Hu, Hrun.
    assert (counters r' = counters r ∧
            uniforms r' !! (lightProgram, countName t)
            = uniforms r !! (lightProgram, countName t)) as [Hc ->].
    { destruct (color _) as [colors|]; [destruct (geometry _ _) as [v|]|];
        destruct Hrun as (H1 & H2 & H3 & _); try done.
      - split; [done|]. rewrite H3. apply lookup_insert_ne.
        intros [= H]. by apply colorName_countName in H.
      - split; [done|]. by rewrite H3. }
    by rewrite (lightCount_counters t r r' Hc).
  - destruct (other_counts color t arguments r t' Ht) as [Hn Hu].
    unfold inSync. by rewrite Hn, Hu.
Qed.

Lemma count_uniforms_follow_counters_witness :
  inSync Ambient (register colorRGB255 Ambient [VNum 150] freshRenderer).2.
Proof.
  refine (proj2 (count_uniforms_follow_counters colorRGB255 Ambient
                   [VNum 150] freshRenderer) _).
  vm_compute. reflexivity.
Defined.

(** ** Registrations of several types *)

Lemma register_other_slots color t arguments r t' j :
  t' ≠ t → sameSlots t' j r (register color t arguments r).2.
Proof.
  intros Ht. split.
  - apply register_other. right. repeat split.
    + apply colorName_countName.
    + apply colorName_material.
    + apply colorName_vectorName.
    + by apply colorName_ne.
  - intros name Hn. apply register_other. right. repeat split.
    + intros ->. by apply vectorName_countName in Hn.
    + intros ->. by apply vectorName_material in Hn.
    + by apply (vectorName_ne t' t j).
    + intros ->. by apply colorName_vectorName in Hn.
Qed.

Lemma sameSlots_trans t j r1 r2 r3 :
  sameSlots t j r1 r2 → sameSlots t j r2 r3 → sameSlots t j r1 r3.
Proof.
  intros [A1 A2] [B1 B2]. split; [by rewrite B1|].
  intros name Hn. by rewrite B2, A2.
Qed.

Lemma registrations_cons t t0 (arguments : list value) rest :
  registrations t ((t0, arguments) :: rest)
  = ((if decide (t0 = t) then 1 else 0) + registrations t rest)%N.
Proof.
  unfold registrations. rewrite filter_cons. cbn [fst].
  destruct (decide (t0 = t)); cbn [length]; lia.
Qed.

Lemma registerEach_Normal color calls r r' :
  registerEach color calls r = (Normal tt, r') →
  (∀ t, lightCount t r' = (lightCount t r + registrations t calls)%N) ∧
  (∀ t j, (j < lightCount t r)%N → sameSlots t j r r') ∧
  (∀ i t arguments, calls !! i = Some (t, arguments) →
     occupies color t arguments
       (lightCount t r + registrations t (take i calls)) r').
Proof.
  revert r. induction calls as [|[t0 a0] rest IH]; intros r E.
  - injection E as <-. split; [|split].
    + intros t. unfold registrations. cbn. lia.
    + by intros t j _.
    + intros i t arguments Hi. by rewrite lookup_nil in Hi.
  - cbn [registerEach] in E. unfold bind in E.
    destruct (register color t0 a0 r) as [[[]|e] r1] eqn:E1; [|done].
    destruct (IH r1 E) as (Hn & Hframe & Hocc).
    pose proof (register_lightCount _ _ _ _ _ E1) as Hn0.
    assert (∀ t, lightCount t r1
                 = (lightCount t r + if decide (t0 = t) then 1 else 0)%N)
      as Hn1.
    { intros t. destruct (decide (t0 = t)) as [<-|Ht]; [done|].
      pose proof (register_counters color t0 a0 r t) as H.
      rewrite E1 in H. cbn [snd] in H. rewrite H by done. lia. }
    assert (∀ t j, (j < lightCount t r)%N → sameSlots t j r r1) as Hstep.
    { intros t j Hj. destruct (decide (t = t0)) as [->|Ht].
      - by apply (register_frame color t0 a0).
      - pose proof (register_other_slots color t0 a0 r t j Ht) as H.
        by rewrite E1 in H. }
    split; [|split].
    + intros t. rewrite Hn, Hn1, registrations_cons. lia.
    + intros t j Hj. apply sameSlots_trans with r1; [by apply Hstep|].
      apply Hframe. rewrite Hn1. lia.
    + intros [|i] t arguments Hi.
      * injection Hi as <- <-. replace (registrations t0 (take 0 _)) with 0%N
          by done. rewrite N.add_0_r.
        destruct (Hframe t0 (lightCount t0 r)) as [F1 F2]; [lia|].
        eapply occupies_frame; [done..|]. by apply register_occupies.
      * cbn [take]. rewrite registrations_cons.
        specialize (Hocc i t arguments Hi). rewrite Hn1 in Hocc.
        by rewrite N.add_assoc.
Qed.

(** X6. Registrations of different types may be mixed: when all the
    calls of a sequence return and the counters started at 0, each counter
    ends at the number of calls of its type, and the light of each call
    occupies, in the arrays of its type, the index given by the number of
    earlier calls of that type. *)
Theorem interleaved_lights_indexed_per_type color calls r r' :
  (∀ t, lightCount t r = 0%N) →
  registerEach color calls r = (Normal tt, r') →
  (∀ t, lightCount t r' = registrations t calls) ∧
  ∀ i t arguments, calls !! i = Some (t, arguments) →
    occupies color t arguments (registrations t (take i calls)) r'.
Proof.
  intros H0 E. destruct (registerEach_Normal _ _ _ _ E) as (Hn & _ & Hocc).
  split.
  - intros t. by rewrite Hn, H0, N.add_0_l.
  - intros i t arguments Hi. specialize (Hocc i t arguments Hi).
    by rewrite H0, N.add_0_l in Hocc.
Qed.

Lemma interleaved_lights_indexed_per_type_witness :
  lightCount Ambient
    (registerEach colorRGB255
       [(Ambient, [VNum 150]);
        (Point, [VNum 250; VNum 250; VNum 250; VNum 1; VNum 2; VNum 3]);
        (Ambient, [VNum 10; VNum 20; VNum 30])]
       freshRenderer).2
  = 2%N.
Proof.
  refine (proj1 (interleaved_lights_indexed_per_type colorRGB255
                   [(Ambient, [VNum 150]);
                    (Point, [VNum 250; VNum 250; VNum 250;
                             VNum 1; VNum 2; VNum 3]);
                    (Ambient, [VNum 10; VNum 20; VNum 30])]
                   freshRenderer _ _ _) Ambient).
  - intros []; reflexivity.
  - apply returns_Normal. vm_compute. reflexivity.
Defined.

(** X7. Of a vector object in last place a directional or point light
    reads the fields [x], [y] and [z] and nothing else: two objects that
    agree on these three, after at least the three arguments of the
    color, give the same outcome and leave the same renderer. *)
Theorem only_x_y_z_of_the_vector_are_read color t pre fs fs' r :
  t = Directional ∨ t = Point → 3 ≤ length pre →
  field fs "x" = field fs' "x" → field fs "y" = field fs' "y" →
  field fs "z" = field fs' "z" →
  register color t (pre ++ [VObj fs]) r
  = register color t (pre ++ [VObj fs']) r.
Proof.
  intros Ht Hpre Hx Hy Hz. apply register_congr.
  - assert (colorArguments t (pre ++ [VObj fs])
            = colorArguments t (pre ++ [VObj fs'])) as ->.
    { destruct Ht as [-> | ->]; cbn [colorArguments];
        by rewrite !index_app_l by lia. }
    unfold sameRGB. by destruct (color _).
  - rewrite !geometry_vector, !trailingVector_object by done.
    by rewrite Hx, Hy, Hz.
Qed.

Lemma only_x_y_z_of_the_vector_are_read_witness :
  register colorRGB255 Point
    ([VNum 250; VNum 250; VNum 250]
       ++ [VObj [("x", VNum 1); ("y", VNum 2); ("z", VNum 3)]])
    freshRenderer
  = register colorRGB255 Point
      ([VNum 250; VNum 250; VNum 250]
         ++ [VObj [("z", VNum 3); ("w", VNum 9); ("y", VNum 2);
                   ("x", VNum 1)]])
      freshRenderer.
Proof.
  refine (only_x_y_z_of_the_vector_are_read colorRGB255 Point
            [VNum 250; VNum 250; VNum 250] _ _ freshRenderer _ _ _ _ _).
  - right; reflexivity.
  - simpl; lia.
  - reflexivity.
  - reflexivity.
  - reflexivity.
Defined.

(** ** More on the image functions *)

Section Tinted.

Variable _toPixels : Canvas → completion (list Z).
Variable modeAdjust : value → value → value → value → value → rect.
Variable toUint8Clamped : Q → Z.
Variable drawn : Canvas → Canvas → rect → completion Canvas.

(** The loop keeps the length of the new array, whatever the lengths of
    the two arrays are. *)
Lemma tintLoop_length tint pixels steps newPixels newPixels' :
  tintLoop toUint8Clamped tint pixels steps newPixels = Normal newPixels' →
  length newPixels' = length newPixels.
Proof.
  revert newPixels. induction steps as [|i steps IH]; intros newPixels E.
  - by injection E as <-.
  - cbn in E. destruct tint as [[[[t0 t1] t2] t3]|]; [|done]. cbn in E.
    apply IH in E. by rewrite !length_insert in E.
Qed.

Lemma offsets_nonempty n : 0 < n → offsets n ≠ [].
Proof.
  intros Hn. unfold offsets.
  assert (1 ≤ (n + 3) / 4) as H by (apply Nat.div_le_lower_bound; lia).
  destruct ((n + 3) / 4); [lia|done].
Qed.

(** [_getTintedImageCanvas] case by case: its result and the sketch it
    leaves. *)
Lemma tinted_cases img s :
  let new := fresh (dom (canvases s)) in
  match canvases s !! canvas img with
  | None =>
      ∃ e, _getTintedImageCanvas _toPixels toUint8Clamped img s = (Throw e, s)
  | Some c =>
      let blankCopy :=
        setCanvases
          (<[new := mkCanvas (width c) (height c)
                      (blank (width c) (height c))]> (canvases s)) s in
      match _toPixels c with
      | Throw e =>
          _getTintedImageCanvas _toPixels toUint8Clamped img s = (Throw e, s)
      | Normal pixels =>
          if (width c =? 0) || (height c =? 0) then
            _getTintedImageCanvas _toPixels toUint8Clamped img s
            = (Throw (Error "IndexSizeError"), blankCopy)
          else
            match tintLoop toUint8Clamped (_tint s) pixels
                    (offsets (length pixels)) (blank (width c) (height c))
            with
            | Throw e =>
                _getTintedImageCanvas _toPixels toUint8Clamped img s
                = (Throw e, blankCopy)
            | Normal newPixels =>
                _getTintedImageCanvas _toPixels toUint8Clamped img s
                = (Normal new,
                   setCanvases
                     (<[new := mkCanvas (width c) (height c) newPixels]>
                        (canvases s)) s)
            end
      end
  end.
Proof.
  intros new. destruct s as [mode tint cur cs].
  cbn [canvases _imageMode _tint _curElement] in *.
  destruct (cs !! canvas img) as [c|] eqn:Hc;
    [destruct (_toPixels c) as [pixels|e] eqn:Hp;
     [destruct ((width c =? 0) || (height c =? 0)) eqn:Hz;
      [|destruct (tintLoop toUint8Clamped tint pixels
                    (offsets (length pixels))
                    (blank (width c) (height c))) as [newPixels|e] eqn:Hl]
     |]|].
  all: try pose proof (fresh_canvas _ _ _ Hc) as Hnew; try fold new in Hnew.
  all: try eexists.
  all: unfold _getTintedImageCanvas;
    cbv [bind gets modify ret lift getCanvas createCanvasElement
         setWidth setHeight putImageData createImageData setCanvases
         canvases _imageMode _tint _curElement];
    fold new;
    repeat first
      [ rewrite lookup_insert_eq | rewrite lookup_insert_ne by done
      | rewrite Hc | rewrite Hp | rewrite Hz | rewrite Hl
      | rewrite insert_insert_eq
      | progress cbn [width height data] ];
    reflexivity.
Qed.

(** The tinted copy of a well-formed canvas of non-empty area. *)
Lemma tinted_Normal img s c pixels t :
  canvases s !! canvas img = Some c → _toPixels c = Normal pixels →
  _tint s = Some t → 0 < width c → 0 < height c →
  length pixels = 4 * width c * height c →
  ∃ newPixels,
    length newPixels = length pixels ∧
    (∀ j p, pixels !! j = Some p →
       newPixels !! j
       = Some (toUint8Clamped (inject_Z p * channel t j / 255)%Q)) ∧
    _getTintedImageCanvas _toPixels toUint8Clamped img s
    = (Normal (fresh (dom (canvases s))),
       setCanvases
         (<[fresh (dom (canvases s))
            := mkCanvas (width c) (height c) newPixels]> (canvases s)) s).
Proof.
  intros Hc Hp Ht Hw Hh Hlen.
  destruct (tintLoop_offsets toUint8Clamped t pixels
              (blank (width c) (height c)) (width c * height c))
    as (newPixels & Hl & Hlen' & Hpix); [lia|..].
  { unfold blank. rewrite length_replicate. lia. }
  exists newPixels. split; [lia|]. split; [done|].
  pose proof (tinted_cases img s) as H. cbv zeta in H.
  rewrite Hc, Hp, Ht, Hl in H.
  destruct ((width c =? 0) || (height c =? 0)) eqn:Hz; [|done].
  apply orb_true_iff in Hz as [Hz%Nat.eqb_eq|Hz%Nat.eqb_eq]; lia.
Qed.

End Tinted.

Lemma wellFormed_blank w h : wellFormed (mkCanvas w h (blank w h)).
Proof. unfold wellFormed, blank. cbn. by rewrite length_replicate. Qed.

(** X8. Four bytes per pixel is an invariant of tinting: if every canvas
    has a bitmap of four bytes for each pixel of its area before
    [_getTintedImageCanvas], every canvas has after it, whether the call
    returns or throws and whatever the pixel reader hands over. *)
Theorem tinting_keeps_four_bytes_per_pixel _toPixels toUint8Clamped img s :
  (∀ id c, canvases s !! id = Some c → wellFormed c) →
  ∀ id c,
    canvases (_getTintedImageCanvas _toPixels toUint8Clamped img s).2 !! id
    = Some c →
    wellFormed c.
Proof.
  intros Hwf id c'.
  pose proof (tinted_cases _toPixels toUint8Clamped img s) as H.
  cbv zeta in H.
  assert (∀ c0 : Canvas, wellFormed c0 →
            <[fresh (dom (canvases s)) := c0]> (canvases s) !! id = Some c' →
            wellFormed c') as Hins.
  { intros c0 H0. destruct (decide (fresh (dom (canvases s)) = id)) as [->|].
    - rewrite lookup_insert_eq. by intros [= <-].
    - rewrite lookup_insert_ne by done. apply Hwf. }
  destruct (canvases s !! canvas img) as [c|];
    [|destruct H as [e ->]; apply Hwf].
  destruct (_toPixels c) as [pixels|e]; [|rewrite H; apply Hwf].
  destruct ((width c =? 0) || (height c =? 0));
    [rewrite H; apply Hins, wellFormed_blank|].
  destruct (tintLoop _ _ _ _ _) as [newPixels|e] eqn:Hl;
    rewrite H; apply Hins; [|apply wellFormed_blank].
  unfold wellFormed. cbn. apply tintLoop_length in Hl. rewrite Hl.
  unfold blank. by rewrite length_replicate.
Qed.

Lemma tinting_keeps_four_bytes_per_pixel_witness :
  wellFormed (mkCanvas 1 1 [100; 100; 0; 255]%Z).
Proof.
  refine (tinting_keeps_four_bytes_per_pixel bitmapPixels clampedByte
            (mkImage (VNum 1) (VNum 1) 1)
            (mkP5 (VStr "corner") (Some (255, 128, 0, 255)%Q) 0
               (<[1 := mkCanvas 1 1 [100; 200; 50; 255]%Z]>
                  (<[0 := mkCanvas 2 1 (blank 2 1)]> ∅)))
            _ 2 _ _).
  - intros id c. cbn [canvases].
    destruct (decide (id = 1)) as [->|];
      [rewrite lookup_insert_eq; intros [= <-]; reflexivity|].
    rewrite lookup_insert_ne by done.
    destruct (decide (id = 0)) as [->|];
      [rewrite lookup_insert_eq; intros [= <-]; reflexivity|].
    rewrite lookup_insert_ne by done. by rewrite lookup_empty.
  - vm_compute. reflexivity.
Defined.

(** X9. Without a tint, [_getTintedImageCanvas] of an image that has
    pixels throws a TypeError on the first byte, the temporary canvas
    already created, sized and blank; the canvases that existed are as
    they were. *)
Theorem tinting_without_a_tint_throws
    _toPixels toUint8Clamped img s c pixels :
  _tint s = None → canvases s !! canvas img = Some c →
  _toPixels c = Normal pixels → pixels ≠ [] →
  0 < width c → 0 < height c →
  _getTintedImageCanvas _toPixels toUint8Clamped img s
  = (Throw (TypeError "Cannot read property '0' of null"),
     setCanvases
       (<[fresh (dom (canvases s))
          := mkCanvas (width c) (height c) (blank (width c) (height c))]>
          (canvases s)) s).
Proof.
  intros Ht Hc Hp Hne Hw Hh.
  pose proof (tinted_cases _toPixels toUint8Clamped img s) as H.
  cbv zeta in H. rewrite Hc, Hp, Ht in H.
  destruct ((width c =? 0) || (height c =? 0)) eqn:Hz.
  { apply orb_true_iff in Hz as [Hz%Nat.eqb_eq|Hz%Nat.eqb_eq]; lia. }
  pose proof (offsets_nonempty (length pixels)) as Ho.
  destruct (offsets (length pixels)) as [|i steps].
  - destruct Ho; [|done]. destruct pixels; [done|cbn; lia].
  - exact H.
Qed.

Lemma tinting_without_a_tint_throws_witness :
  (_getTintedImageCanvas bitmapPixels clampedByte
     (mkImage (VNum 1) (VNum 1) 1)
     (mkP5 (VStr "corner") None 0
        (<[1 := mkCanvas 1 1 [100; 200; 50; 255]%Z]> ∅))).1
  = Throw (TypeError "Cannot read property '0' of null").
Proof.
  rewrite (tinting_without_a_tint_throws bitmapPixels clampedByte
             (mkImage (VNum 1) (VNum 1) 1) _
             (mkCanvas 1 1 [100; 200; 50; 255]%Z) [100; 200; 50; 255]%Z).
  - reflexivity.
  - reflexivity.
  - vm_compute. reflexivity.
  - reflexivity.
  - discriminate.
  - simpl. lia.
  - simpl. lia.
Defined.

(** X10. Without a tint, [image] draws the canvas of the image itself,
    in the rectangle [modeAdjust] gives for the stored mode, with the
    size of the image where width or height is left out: when the
    drawing succeeds the canvas drawn on is replaced by its result and
    nothing else changes, no canvas is created; when it fails the error
    comes out and the sketch is as it was. *)
Theorem image_without_tint_draws_the_image
    _toPixels modeAdjust toUint8Clamped drawn img x y w h s target source :
  _tint s = None →
  canvases s !! _curElement s = Some target →
  canvases s !! canvas img = Some source →
  let w' := match w with VUndefined => img_width img | _ => w end in
  let h' := match h with VUndefined => img_height img | _ => h end in
  image _toPixels modeAdjust toUint8Clamped drawn img x y w h s
  = match drawn target source (modeAdjust x y w' h' (_imageMode s)) with
    | Normal target' =>
        (Normal tt,
         setCanvases (<[_curElement s := target']> (canvases s)) s)
    | Throw e => (Throw e, s)
    end.
Proof.
  intros Ht Hcur Hsrc w' h'. unfold image. cbv zeta. fold w' h'.
  cbv [bind gets]. rewrite Ht.
  unfold drawImage, getCanvas. cbv [bind gets modify ret lift].
  rewrite Hcur, Hsrc. by destruct (drawn _ _ _).
Qed.

Lemma image_without_tint_draws_the_image_witness :
  let s := mkP5 (VStr "corner") None 0
             (<[1 := mkCanvas 1 1 [100; 200; 50; 255]%Z]>
                (<[0 := mkCanvas 2 1 (blank 2 1)]> ∅)) in
  canvases
    (image bitmapPixels cornerRect clampedByte copied
       (mkImage (VNum 1) (VNum 1) 1) (VNum 0) (VNum 0) VUndefined VUndefined
       s).2 !! 0
  = Some (mkCanvas 2 1 [100; 200; 50; 255]%Z).
Proof.
  intros s.
  rewrite (image_without_tint_draws_the_image bitmapPixels cornerRect
             clampedByte copied (mkImage (VNum 1) (VNum 1) 1)
             (VNum 0) (VNum 0) VUndefined VUndefined s
             (mkCanvas 2 1 (blank 2 1))
             (mkCanvas 1 1 [100; 200; 50; 255]%Z)).
  - vm_compute. reflexivity.
  - reflexivity.
  - vm_compute. reflexivity.
  - vm_compute. reflexivity.
Defined.

(** X11. With a tint, what [image] draws is the tinted copy: for an
    image with a well-formed canvas of non-empty area, the canvas drawn
    on is replaced by the drawing of a canvas of the same size as the
    source whose bytes are the scaled bytes of the source; the only other
    change is the new canvas that holds the copy. *)
Theorem image_with_tint_draws_the_tinted_copy
    _toPixels modeAdjust toUint8Clamped drawn img x y w h s
    target source pixels t :
  _tint s = Some t →
  canvases s !! _curElement s = Some target →
  canvases s !! canvas img = Some source →
  _toPixels source = Normal pixels →
  0 < width source → 0 < height source →
  length pixels = 4 * width source * height source →
  let w' := match w with VUndefined => img_width img | _ => w end in
  let h' := match h with VUndefined => img_height img | _ => h end in
  let new := fresh (dom (canvases s)) in
  ∃ newPixels,
    length newPixels = length pixels ∧
    (∀ j p, pixels !! j = Some p →
       newPixels !! j
       = Some (toUint8Clamped (inject_Z p * channel t j / 255)%Q)) ∧
    let copy := mkCanvas (width source) (height source) newPixels in
    image _toPixels modeAdjust toUint8Clamped drawn img x y w h s
    = match drawn target copy (modeAdjust x y w' h' (_imageMode s)) with
      | Normal target' =>
          (Normal tt,
           setCanvases
             (<[_curElement s := target']> (<[new := copy]> (canvases s))) s)
      | Throw e => (Throw e, setCanvases (<[new := copy]> (canvases s)) s)
      end.
Proof.
  intros Ht Hcur Hsrc Hp Hw Hh Hlen w' h' new.
  destruct (tinted_Normal _toPixels toUint8Clamped img s source pixels t)
    as (newPixels & Hl & Hpix & Hrun); try done.
  exists newPixels. split; [done|]. split; [done|]. cbv zeta.
  unfold image. cbv zeta. fold w' h'. cbv [bind gets]. rewrite Ht, Hrun.
  fold new.
  assert (new ≠ _curElement s) as Hnew by (by eapply fresh_canvas).
  unfold drawImage, getCanvas. destruct s as [mode tint cur cs].
  cbv [bind gets modify ret lift setCanvases canvases _curElement
       _imageMode _tint] in *.
  rewrite lookup_insert_ne, Hcur, lookup_insert_eq by done.
  by destruct (drawn _ _ _).
Qed.

Lemma image_with_tint_draws_the_tinted_copy_witness :
  let s := mkP5 (VStr "corner") (Some (255, 128, 0, 255)%Q) 0
             (<[1 := mkCanvas 1 1 [100; 200; 50; 255]%Z]>
                (<[0 := mkCanvas 2 1 (blank 2 1)]> ∅)) in
  ∃ newPixels : list Z,
    newPixels !! 1 = Some (clampedByte (inject_Z 200 * 128 / 255)%Q).
Proof.
  intros s.
  destruct (image_with_tint_draws_the_tinted_copy bitmapPixels cornerRect
              clampedByte copied (mkImage (VNum 1) (VNum 1) 1)
              (VNum 0) (VNum 0) VUndefined VUndefined s
              (mkCanvas 2 1 (blank 2 1))
              (mkCanvas 1 1 [100; 200; 50; 255]%Z) [100; 200; 50; 255]%Z
              (255, 128, 0, 255)%Q)
    as (newPixels & _ & H & _).
  - reflexivity.
  - vm_compute. reflexivity.
  - vm_compute. reflexivity.
  - reflexivity.
  - simpl. lia.
  - simpl. lia.
  - reflexivity.
  - exists newPixels. apply (H 1 200%Z). reflexivity.
Defined.

(** ** Bytes and tints *)

(** A rational equal to an integer of the byte range is stored as that
    integer. *)
Lemma clampedByte_integer (p : Z) (q : Q) :
  isByte p → (q == inject_Z p)%Q → clampedByte q = p.
Proof.
  intros Hp Hq. unfold clampedByte. cbv zeta.
  rewrite (Qfloor_comp _ _ Hq), Qfloor_Z.
  assert ((q - inject_Z p ?= 1 # 2)%Q = Lt) as ->.
  { destruct q as [n d]. unfold Qeq in Hq.
    unfold Qcompare, Qminus, Qplus, Qopp, inject_Z in *. cbn in *.
    apply Z.compare_lt_iff. lia. }
  unfold isByte in Hp. lia.
Qed.

Lemma scale_by_255 (p : Z) (ch : Q) :
  (ch == 255)%Q → (inject_Z p * ch / 255 == inject_Z p)%Q.
Proof.
  intros Hch. apply Qeq_trans with (inject_Z p * 255 / 255)%Q.
  - unfold Qdiv. apply Qmult_comp; [|apply Qeq_refl].
    apply Qmult_comp; [apply Qeq_refl|done].
  - apply Qdiv_mult_l. by intros [=].
Qed.

Lemma scale_by_0 (p : Z) (ch : Q) :
  (ch == 0)%Q → (inject_Z p * ch / 255 == inject_Z 0)%Q.
Proof.
  intros Hch. apply Qeq_trans with (inject_Z p * 0 / 255)%Q.
  - unfold Qdiv. apply Qmult_comp; [|apply Qeq_refl].
    apply Qmult_comp; [apply Qeq_refl|done].
  - unfold Qeq. cbn. lia.
Qed.

(** X12. For bytes stored as the browser stores them in a clamped array:
    a tint channel of 255 leaves the bytes it meets as they are, and a
    tint channel of 0 makes them 0. So [tint(255, a)] changes only the
    opacity of an image. *)
Theorem tint_channel_255_keeps_and_0_clears _toPixels img s c pixels t :
  canvases s !! canvas img = Some c → _toPixels c = Normal pixels →
  _tint s = Some t → 0 < width c → 0 < height c →
  length pixels = 4 * width c * height c → Forall isByte pixels →
  ∃ tinted,
    canvases (_getTintedImageCanvas _toPixels clampedByte img s).2
      !! fresh (dom (canvases s))
    = Some tinted ∧
    ∀ j p, pixels !! j = Some p →
      ((channel t j == 255)%Q → data tinted !! j = Some p) ∧
      ((channel t j == 0)%Q → data tinted !! j = Some 0%Z).
Proof.
  intros Hc Hp Ht Hw Hh Hlen Hbytes.
  destruct (tinted_Normal _toPixels clampedByte img s c pixels t)
    as (newPixels & _ & Hpix & ->); try done.
  exists (mkCanvas (width c) (height c) newPixels). cbn [snd canvases setCanvases].
  split; [apply lookup_insert_eq|]. intros j p Hj. cbn [data].
  rewrite (Hpix j p Hj).
  assert (isByte p) as Hb.
  { rewrite Forall_forall in Hbytes. apply Hbytes.
    by eapply list_elem_of_lookup_2. }
  split; intros Hch; f_equal.
  - apply clampedByte_integer; [done|]. by apply scale_by_255.
  - apply clampedByte_integer; [unfold isByte; lia|]. by apply scale_by_0.
Qed.

Lemma tint_channel_255_keeps_and_0_clears_witness :
  let s := mkP5 (VStr "corner") (Some (255, 128, 0, 255)%Q) 0
             (<[1 := mkCanvas 1 1 [100; 200; 50; 255]%Z]>
                (<[0 := mkCanvas 2 1 (blank 2 1)]> ∅)) in
  ∃ tinted : Canvas,
    data tinted !! 0 = Some 100%Z ∧ data tinted !! 2 = Some 0%Z.
Proof.
  intros s.
  destruct (tint_channel_255_keeps_and_0_clears bitmapPixels
              (mkImage (VNum 1) (VNum 1) 1) s
              (mkCanvas 1 1 [100; 200; 50; 255]%Z) [100; 200; 50; 255]%Z
              (255, 128, 0, 255)%Q)
    as (tinted & _ & H).
  - vm_compute. reflexivity.
  - reflexivity.
  - reflexivity.
  - simpl. lia.
  - simpl. lia.
  - reflexivity.
  - repeat constructor; unfold isByte; lia.
  - exists tinted. split.
    + apply (H 0 100%Z); reflexivity.
    + apply (H 2 50%Z); reflexivity.
Defined.

(** X13. Tinting with opaque white copies: for an image whose canvas is
    well formed, of non-empty area and made of bytes, the tint
    (255, 255, 255, 255) gives a new canvas equal to the canvas of the
    image. *)
Theorem white_tint_copies_the_image img s c :
  canvases s !! canvas img = Some c →
  _tint s = Some (255, 255, 255, 255)%Q →
  0 < width c → 0 < height c → wellFormed c → Forall isByte (data c) →
  _getTintedImageCanvas bitmapPixels clampedByte img s
  = (Normal (fresh (dom (canvases s))),
     setCanvases (<[fresh (dom (canvases s)) := c]> (canvases s)) s).
Proof.
  intros Hc Ht Hw Hh Hwf Hbytes.
  destruct (tinted_Normal bitmapPixels clampedByte img s c (data c)
              (255, 255, 255, 255)%Q)
    as (newPixels & Hlen & Hpix & ->); try done.
  assert (newPixels = data c) as ->; [|by destruct c].
  apply list_eq. intros j. destruct (data c !! j) as [p|] eqn:Hj.
  - rewrite (Hpix j p Hj). f_equal. apply clampedByte_integer.
    + rewrite Forall_forall in Hbytes. apply Hbytes.
      by eapply list_elem_of_lookup_2.
    + apply scale_by_255. unfold channel.
      by destruct (j mod 4) as [|[|[|?]]].
  - apply lookup_ge_None. apply lookup_ge_None in Hj. lia.
Qed.

Lemma white_tint_copies_the_image_witness :
  (_getTintedImageCanvas bitmapPixels clampedByte
     (mkImage (VNum 1) (VNum 1) 1)
     (mkP5 (VStr "corner") (Some (255, 255, 255, 255)%Q) 0
        (<[1 := mkCanvas 1 1 [100; 200; 50; 255]%Z]> ∅))).1
  = Normal (fresh (dom (<[1 := mkCanvas 1 1 [100; 200; 50; 255]%Z]>
                         (∅ : gmap nat Canvas)))).
Proof.
  rewrite (white_tint_copies_the_image (mkImage (VNum 1) (VNum 1) 1) _
             (mkCanvas 1 1 [100; 200; 50; 255]%Z)).
  - reflexivity.
  - vm_compute. reflexivity.
  - reflexivity.
  - simpl. lia.
  - simpl. lia.
  - reflexivity.
  - repeat constructor; unfold isByte; lia.
Defined.

(** ** The image mode *)

Lemma strictEqString_true m c : strictEqString m c = true ↔ m = VStr c.
Proof.
  destruct m; cbn; try (split; [done|by intros [=]]).
  rewrite String.eqb_eq. split; [by intros ->|by intros [= ->]].
Qed.

Lemma imageMode_run CORNER CORNERS CENTER m s :
  (validMode CORNER CORNERS CENTER m ∧
   imageMode CORNER CORNERS CENTER m s = (Normal tt, setImageMode m s))
  ∨ (¬ validMode CORNER CORNERS CENTER m ∧
     imageMode CORNER CORNERS CENTER m s = (Normal tt, s)).
Proof.
  unfold imageMode, validMode.
  destruct (strictEqString m CORNER) eqn:E1;
    [|destruct (strictEqString m CORNERS) eqn:E2;
      [|destruct (strictEqString m CENTER) eqn:E3]]; cbn [orb].
  4: { right. split; [|done].
       intros [H|[H|H]]; apply strictEqString_true in H; congruence. }
  all: left; split; [|done].
  - left. by apply strictEqString_true.
  - right; left. by apply strictEqString_true.
  - right; right. by apply strictEqString_true.
Qed.

(** X15. The stored image mode stays one of the three constants: if it
    is one of them before [imageMode(m)], it is one of them after,
    whatever [m] is. *)
Theorem imageMode_keeps_a_valid_mode CORNER CORNERS CENTER m s :
  validMode CORNER CORNERS CENTER (_imageMode s) →
  validMode CORNER CORNERS CENTER
    (_imageMode (imageMode CORNER CORNERS CENTER m s).2).
Proof.
  intros Hs.
  destruct (imageMode_run CORNER CORNERS CENTER m s) as [[Hm ->]|[_ ->]];
    done.
Qed.

Lemma imageMode_keeps_a_valid_mode_witness :
  validMode "corner" "corners" "center"
    (_imageMode
       (imageMode "corner" "corners" "center" (VNum 3)
          (mkP5 (VStr "center") None 0 ∅)).2).
Proof.
  apply (imageMode_keeps_a_valid_mode "corner" "corners" "center" (VNum 3)
           (mkP5 (VStr "center") None 0 ∅)).
  right; right. reflexivity.
Defined.

(** X16. Of two calls of [imageMode] in a row the last with a valid mode
    decides: when the second argument is one of the three constants the
    first call might as well not have happened, and when it is not, the
    second call changes nothing. In particular a call repeated is the
    call made once. *)
Theorem imageMode_last_valid_call_wins CORNER CORNERS CENTER m m' s :
  (validMode CORNER CORNERS CENTER m' ∧
   imageMode CORNER CORNERS CENTER m'
     (imageMode CORNER CORNERS CENTER m s).2
   = imageMode CORNER CORNERS CENTER m' s)
  ∨ (¬ validMode CORNER CORNERS CENTER m' ∧
     imageMode CORNER CORNERS CENTER m'
       (imageMode CORNER CORNERS CENTER m s).2
     = imageMode CORNER CORNERS CENTER m s).
Proof.
  destruct (imageMode_run CORNER CORNERS CENTER m s) as [[Hm E]|[Hm E]];
    rewrite E; cbn [snd];
    destruct (imageMode_run CORNER CORNERS CENTER m' s) as [[Hm' E']|[Hm' E']].
  - left. split; [done|]. rewrite E'.
    destruct (imageMode_run CORNER CORNERS CENTER m' (setImageMode m s))
      as [[_ ->]|[? _]]; done.
  - right. split; [done|].
    destruct (imageMode_run CORNER CORNERS CENTER m' (setImageMode m s))
      as [[? _]|[_ ->]]; done.
  - left. by split.
  - right. by split.
Qed.

(** ** What [image] leaves alone *)

Lemma drawImage_fields drawn source vals s :
  _imageMode (drawImage drawn source vals s).2 = _imageMode s ∧
  _tint (drawImage drawn source vals s).2 = _tint s ∧
  _curElement (drawImage drawn source vals s).2 = _curElement s.
Proof.
  destruct s as [mode tint cur cs]. unfold drawImage, getCanvas.
  cbv [bind gets modify ret lift setCanvases canvases _curElement].
  destruct (cs !! cur) as [ct|]; [|done].
  destruct (cs !! source) as [c|]; [|done].
  by destruct (drawn ct c vals).
Qed.

(** X17. Whatever its arguments and its outcome, with or without a tint,
    [image] leaves the stored mode, the tint and the drawing target as
    they were, and changes no canvas other than the one it draws on and
    the new one a tinted copy takes. *)
Theorem image_changes_only_the_target
    _toPixels modeAdjust toUint8Clamped drawn img x y w h s :
  let out := image _toPixels modeAdjust toUint8Clamped drawn img x y w h s in
  _imageMode out.2 = _imageMode s ∧ _tint out.2 = _tint s ∧
  _curElement out.2 = _curElement s ∧
  ∀ id, id ≠ _curElement s → id ≠ fresh (dom (canvases s)) →
    canvases out.2 !! id = canvases s !! id.
Proof.
  cbv zeta. cbv [image bind gets].
  set (vals := modeAdjust _ _ _ _ _).
  destruct (_tint s) as [t|] eqn:Et.
  - destruct (tinted_run _toPixels toUint8Clamped img s)
      as (Hm & Ht & Hc & Hframe & _).
    destruct (_getTintedImageCanvas _ _ img s) as [[tinted|e] s'];
      cbn [fst snd] in *.
    + destruct (drawImage_fields drawn tinted vals s') as (Fm & Ft & Fc).
      rewrite Fm, Ft, Fc, Hm, Ht, Hc, Et. repeat (split; [done|]).
      intros id H1 H2. rewrite drawImage_frame by congruence.
      by apply Hframe.
    + rewrite Hm, Ht, Hc, Et. repeat (split; [done|]).
      intros id _ H2. by apply Hframe.
  - destruct (drawImage_fields drawn (canvas img) vals s) as (Fm & Ft & Fc).
    rewrite Fm, Ft, Fc, Et. repeat (split; [done|]).
    intros id H1 _. by apply drawImage_frame.
Qed.
